(** * HAMMER transaction and identifier allocation

    A shallow embedding of [src/dfly/vfs/hammer/hammer_transaction.c]:
    the transaction id allocator [hammer_alloc_tid], the per-directory
    object id cache ([hammer_alloc_objid], [hammer_clear_objid],
    [hammer_destroy_objid_cache]) and the transaction brackets
    ([hammer_start_transaction], [hammer_simple_transaction],
    [hammer_start_transaction_fls], [hammer_done_transaction]).

    Conventions.
    - [hammer_tid_t] is an unsigned 64-bit integer: a [Z] in [0, 2^64),
      every addition reduced with [u64].
    - C [int] fields ([master_id], [objid_cache_count], [count],
      [sync_lock_refs], [flags]) are [Z]; signed overflow is undefined in
      C, and the statements below keep these values inside the [int]
      range.
    - [panic()] and a failed [KKASSERT] halt the kernel: the outcome
      [Panic].  A NULL or dangling pointer dereference is the outcome
      [Fault].
    - The kernel services the file calls and src/dfly_wrap.c defines
      are modelled from their bodies there: [dfly_kmalloc] forwards to
      the kmalloc of Linux, while [dfly_kfree], [bzero] and
      [getmicrotime] are placeholders whose body is one [panic(...)],
      so a call that reaches one of them does not return.
    - The other services (root volume lookup and release, the two
      waits at the end of a transaction) are hammer code outside the
      sources at hand: they appear as arguments ([vol], [error]) and
      as recorded calls ([collab_call]). *)

From Stdlib Require Import ZArith List Lia.
From stdpp Require Import base list gmap.

Open Scope Z_scope.

(** ** Machine integers *)

Definition u64 (z : Z) : Z := z mod 2 ^ 64.

(** Modelled from the spec: [HAMMER_MAX_MASTERS], a macro of
    hammer_disk.h, which is not part of the sources at hand.  The
    scenario of section 8 fixes [MAX_MASTERS = 16], and the comments of
    [hammer_alloc_tid] and [hammer_alloc_objid] say the same ("aligned
    to a 16-count plus the master id (0-15)", "incremented by 1 or by
    16"). *)
Definition HAMMER_MAX_MASTERS : Z := 16.

(** The bound tested at line 164, [0xFFFFFFFFFF000000ULL] = 2^64 - 2^24. *)
Definition HAMMER_TID_LIMIT : Z := 0xFFFFFFFFFF000000.

(** ** Outcomes of a call *)

Inductive result (A : Type) : Type :=
| Ret (a : A)   (* the call returns [a] *)
| Panic         (* panic() or a failed KKASSERT: the mount is gone *)
| Fault         (* NULL or dangling pointer dereferenced *)
| Spin.         (* a loop was cut off before its test turned false *)
Arguments Ret {A} a.
Arguments Panic {A}.
Arguments Fault {A}.
Arguments Spin {A}.

#[global] Instance result_ret : MRet result := fun _ a => Ret a.

#[global] Instance result_bind : MBind result := fun _ _ k r =>
  match r with
  | Ret a => k a
  | Panic => Panic
  | Fault => Fault
  | Spin => Spin
  end.

(** ** The mount's allocator state *)

Record hammer_mount : Type := mkMount {
  next_tid : Z;                    (* hammer_tid_t next_tid *)
  master_id : Z;                   (* int master_id; < 0: single master *)
  objid_cache_list : list nat;     (* TAILQ of entries, head first *)
  objid_cache_count : Z            (* int objid_cache_count *)
}.

Definition set_next_tid (hmp : hammer_mount) (v : Z) : hammer_mount :=
  mkMount v (master_id hmp) (objid_cache_list hmp) (objid_cache_count hmp).

Definition set_objid_cache_list (hmp : hammer_mount) (l : list nat) : hammer_mount :=
  mkMount (next_tid hmp) (master_id hmp) l (objid_cache_count hmp).

Definition set_objid_cache_count (hmp : hammer_mount) (c : Z) : hammer_mount :=
  mkMount (next_tid hmp) (master_id hmp) (objid_cache_list hmp) c.

(** ** hammer_alloc_tid (lines 150-169)

    [count * HAMMER_MAX_MASTERS] is an [int] product converted to 64
    bits; for [|count| < 2^27] it is the integer product reduced modulo
    2^64, which is what the sum below computes.  The debug print of
    line 166 has no effect on the state. *)
Definition hammer_alloc_tid (hmp : hammer_mount) (count : Z)
  : result (Z * hammer_mount) :=
  let '(tid, hmp') :=
    if master_id hmp <? 0 then
      let tid := u64 (next_tid hmp + 1) in
      (tid, set_next_tid hmp (u64 (tid + count)))
    else
      let tid := Z.land (u64 (next_tid hmp + HAMMER_MAX_MASTERS))
                        (u64 (Z.lnot (HAMMER_MAX_MASTERS - 1))) in
      (Z.lor tid (master_id hmp),
       set_next_tid hmp (u64 (tid + count * HAMMER_MAX_MASTERS)))
  in
  if HAMMER_TID_LIMIT <=? tid then Panic else Ret (tid, hmp').

(** The value line 164 tests and line 168 returns. *)
Definition alloc_tid_value (hmp : hammer_mount) : Z :=
  if master_id hmp <? 0 then u64 (next_tid hmp + 1)
  else Z.lor (Z.land (u64 (next_tid hmp + HAMMER_MAX_MASTERS))
                     (u64 (Z.lnot (HAMMER_MAX_MASTERS - 1))))
             (master_id hmp).

(** A serial run of allocations on one mount: the [(base, count)] of
    every call that returned, in call order.  A panic ends the run. *)
Fixpoint alloc_tid_seq (hmp : hammer_mount) (counts : list Z) : list (Z * Z) :=
  match counts with
  | [] => []
  | c :: cs =>
    match hammer_alloc_tid hmp c with
    | Ret (tid, hmp') => (tid, c) :: alloc_tid_seq hmp' cs
    | _ => []
    end
  end.

(** The range [[b, b + c)] a call reserves, as the spec writes it. *)
Definition in_range (bc : Z * Z) (x : Z) : Prop := fst bc <= x < fst bc + snd bc.

Definition ranges_disjoint (r1 r2 : Z * Z) : Prop :=
  forall x, ~ (in_range r1 x /\ in_range r2 x).

(** Bases strictly increase with call order. *)
Definition bases_increase (r : list (Z * Z)) : Prop :=
  forall (i j : nat) (ri rj : Z * Z),
    (i < j)%nat -> r !! i = Some ri -> r !! j = Some rj -> fst ri < fst rj.

Definition ranges_pairwise_disjoint (r : list (Z * Z)) : Prop :=
  forall (i j : nat) (ri rj : Z * Z),
    (i < j)%nat -> r !! i = Some ri -> r !! j = Some rj -> ranges_disjoint ri rj.

(** [round_up(x, n)] as the spec words it: the least multiple of [n]
    that is not below [x] (Linux's [round_up] macro for a power of two). *)
Definition spec_round_up (x n : Z) : Z := ((x + n - 1) / n) * n.

(** ** The object id cache

    [OBJID_CACHE_SIZE], [OBJID_CACHE_BULK] and the transaction flag bits
    are macros of hammer.h, which is not part of the sources at hand:
    they are taken as parameters.  (DragonFly's header has 1024,
    100000, 0x0001 and 0x0002; the spec's scenarios use a pool of one
    entry and a bulk of four.) *)
Class hammer_h : Type := mkHammerH {
  OBJID_CACHE_SIZE : Z;
  OBJID_CACHE_BULK : Z;
  HAMMER_TRANSF_NEWINODE : Z;
  HAMMER_TRANSF_DIDIO : Z
}.

(** [struct hammer_objid_cache]: the owning directory (NULL when
    unbound), the next id to hand out, the ids left. *)
Record hammer_objid_cache : Type := mkOcp {
  ocp_dip : option nat;
  ocp_next_tid : Z;
  ocp_count : Z
}.

(** The memory the cache code reads and writes: the mount, the
    cache entries allocated so far, by address, and the
    [objid_cache] field of every inode (absent = NULL).  [kmalloc]
    (line 182) is [dfly_kmalloc] of src/dfly_wrap.c, which forwards to
    the kmalloc of Linux; the allocation is taken to succeed: [brk] is
    the address it returns next, addresses are not handed out twice,
    and an access through an address that holds no entry is a
    [Fault]. *)
Record kmem : Type := mkKmem {
  mount : hammer_mount;
  ocache : gmap nat hammer_objid_cache;
  icache : gmap nat nat;
  brk : nat
}.

(** [kfree(ocp, hmp->m_misc)] (lines 214 and 243) is [dfly_kfree] of
    src/dfly_wrap.c, the one [kfree] with two arguments.  Its body is
    [panic("dfly_kfree")]: nothing is released and the call does not
    return. *)
Definition dfly_kfree (ocp : nat) (live : gmap nat hammer_objid_cache)
  : result (gmap nat hammer_objid_cache) := Panic.

Definition kfree := dfly_kfree.

(** <sys/queue.h> on the list of entry addresses, head first. *)
Definition TAILQ_FIRST (l : list nat) : option nat := head l.
Definition TAILQ_INSERT_HEAD (l : list nat) (p : nat) : list nat := p :: l.
Definition TAILQ_INSERT_TAIL (l : list nat) (p : nat) : list nat := l ++ [p].
Fixpoint TAILQ_REMOVE (l : list nat) (p : nat) : list nat :=
  match l with
  | [] => []
  | q :: l' => if decide (q = p) then l' else q :: TAILQ_REMOVE l' p
  end.

(** [ocp->dip->objid_cache = NULL] when [ocp->dip] is set. *)
Definition clear_owner (e : hammer_objid_cache) (ic : gmap nat nat) : gmap nat nat :=
  match ocp_dip e with
  | Some d => delete d ic
  | None => ic
  end.

Section ObjidCache.
Context `{hammer_h}.

(** One pass through the body of the loop of [hammer_alloc_objid]
    (lines 181-199), entered with [dip->objid_cache == NULL].  Nothing
    between the loop test and the recheck of line 189 writes
    [dip->objid_cache], so in a serial run the recheck succeeds; its
    other branch is kept as in the source, with [ocp->dip] NULL as
    M_ZERO asks ([dfly_kmalloc] does not pass the flag on). *)
Definition objid_cache_fill (m : kmem) (dip : nat) : result kmem :=
  let hmp := mount m in
  if objid_cache_count hmp <? OBJID_CACHE_SIZE then
    let ocp := brk m in
    '(tid, hmp) ← hammer_alloc_tid hmp OBJID_CACHE_BULK;
    let e := mkOcp None tid OBJID_CACHE_BULK in
    let hmp := set_objid_cache_list hmp (TAILQ_INSERT_HEAD (objid_cache_list hmp) ocp) in
    let hmp := set_objid_cache_count hmp (objid_cache_count hmp + 1) in
    (* may have blocked, recheck *)
    match icache m !! dip with
    | None =>
      Ret (mkKmem hmp (<[ocp := mkOcp (Some dip) tid OBJID_CACHE_BULK]> (ocache m))
                  (<[dip := ocp]> (icache m)) (S (brk m)))
    | Some _ =>
      Ret (mkKmem hmp (<[ocp := e]> (ocache m)) (icache m) (S (brk m)))
    end
  else
    match TAILQ_FIRST (objid_cache_list hmp) with
    | None => Fault
    | Some ocp =>
      match ocache m !! ocp with
      | None => Fault
      | Some e =>
        Ret (mkKmem hmp
                    (<[ocp := mkOcp (Some dip) (ocp_next_tid e) (ocp_count e)]> (ocache m))
                    (<[dip := ocp]> (clear_owner e (icache m)))
                    (brk m))
      end
    end.

(** [while ((ocp = dip->objid_cache) == NULL) { ... }], at most [fuel]
    passes. *)
Fixpoint objid_cache_loop (fuel : nat) (m : kmem) (dip : nat) : result (nat * kmem) :=
  match icache m !! dip with
  | Some ocp => Ret (ocp, m)
  | None =>
    match fuel with
    | O => Spin
    | S fuel' => m' ← objid_cache_fill m dip; objid_cache_loop fuel' m' dip
    end
  end.

(** Lines 201-218: detach the entry, take its next id, free the entry
    when that was its last id and put it back at the tail otherwise.
    The memory written in the first branch is what line 218 would
    return with, were [kfree] to return. *)
Definition objid_take (m : kmem) (dip ocp : nat) : result (Z * kmem) :=
  match ocache m !! ocp with
  | None => Fault
  | Some e =>
    let hmp := mount m in
    let l := TAILQ_REMOVE (objid_cache_list hmp) ocp in
    let tid := ocp_next_tid e in
    let next := u64 (tid + (if master_id hmp <? 0 then 1 else HAMMER_MAX_MASTERS)) in
    let count := ocp_count e - 1 in
    if count =? 0 then
      live ← kfree ocp (ocache m);
      Ret (tid,
           mkKmem (set_objid_cache_count (set_objid_cache_list hmp l)
                                         (objid_cache_count hmp - 1))
                  live (delete dip (icache m)) (brk m))
    else
      Ret (tid,
           mkKmem (set_objid_cache_list hmp (TAILQ_INSERT_TAIL l ocp))
                  (<[ocp := mkOcp (ocp_dip e) next count]> (ocache m))
                  (icache m) (brk m))
  end.

(** hammer_alloc_objid (lines 174-219).  One pass of the loop is all a
    serial run needs: see [hammer_alloc_objid_exits]. *)
Definition hammer_alloc_objid (m : kmem) (dip : nat) : result (Z * kmem) :=
  '(ocp, m) ← objid_cache_loop 1 m dip;
  objid_take m dip ocp.

(** hammer_clear_objid (lines 221-232). *)
Definition hammer_clear_objid (m : kmem) (dip : nat) : result kmem :=
  match icache m !! dip with
  | None => Ret m
  | Some ocp =>
    match ocache m !! ocp with
    | None => Fault
    | Some e =>
      let hmp := mount m in
      let l := TAILQ_REMOVE (objid_cache_list hmp) ocp in
      Ret (mkKmem (set_objid_cache_list hmp (TAILQ_INSERT_HEAD l ocp))
                  (<[ocp := mkOcp None (ocp_next_tid e) (ocp_count e)]> (ocache m))
                  (delete dip (icache m)) (brk m))
    end
  end.

(** The loop of hammer_destroy_objid_cache (lines 239-244), at most
    [fuel] passes. *)
Fixpoint objid_destroy_loop (fuel : nat) (m : kmem) : result kmem :=
  match TAILQ_FIRST (objid_cache_list (mount m)) with
  | None => Ret m
  | Some ocp =>
    match fuel with
    | O => Spin
    | S fuel' =>
      match ocache m !! ocp with
      | None => Fault
      | Some e =>
        let hmp := mount m in
        live ← kfree ocp (ocache m);
        objid_destroy_loop fuel'
          (mkKmem (set_objid_cache_list hmp (TAILQ_REMOVE (objid_cache_list hmp) ocp))
                  live (clear_owner e (icache m)) (brk m))
      end
    end
  end.

(** hammer_destroy_objid_cache (lines 234-245): every pass unlinks the
    head, so the loop needs no more passes than the list is long. *)
Definition hammer_destroy_objid_cache (m : kmem) : result kmem :=
  objid_destroy_loop (length (objid_cache_list (mount m))) m.

(** *** Serial runs *)

(** What a serial caller can do to the allocator state: ask an object
    id for a directory, release a directory's entry, or draw one TID
    as line 109 does for a flusher transaction. *)
Inductive objid_op : Type :=
| OpAlloc (dip : nat)
| OpClear (dip : nat)
| OpAllocTid.

(** The object ids returned so far (oldest first) and the state
    reached; a call that does not return ends the run. *)
Fixpoint objid_run (m : kmem) (ops : list objid_op) : list Z * result kmem :=
  match ops with
  | [] => ([], Ret m)
  | OpAlloc dip :: ops' =>
    match hammer_alloc_objid m dip with
    | Ret (tid, m') => let '(ids, r) := objid_run m' ops' in (tid :: ids, r)
    | Panic => ([], Panic)
    | Fault => ([], Fault)
    | Spin => ([], Spin)
    end
  | OpClear dip :: ops' =>
    match hammer_clear_objid m dip with
    | Ret m' => objid_run m' ops'
    | Panic => ([], Panic)
    | Fault => ([], Fault)
    | Spin => ([], Spin)
    end
  | OpAllocTid :: ops' =>
    match hammer_alloc_tid (mount m) 1 with
    | Ret (_, hmp) => objid_run (mkKmem hmp (ocache m) (icache m) (brk m)) ops'
    | Panic => ([], Panic)
    | Fault => ([], Fault)
    | Spin => ([], Spin)
    end
  end.

(** [n] object ids asked in a row for one directory. *)
Fixpoint objid_draw (n : nat) (m : kmem) (dip : nat) : result (list Z * kmem) :=
  match n with
  | O => Ret ([], m)
  | S n' =>
    '(tid, m) ← hammer_alloc_objid m dip;
    '(ids, m) ← objid_draw n' m dip;
    Ret (tid :: ids, m)
  end.

(** The pool holds at most [OBJID_CACHE_SIZE] entries. *)
Definition pool_bounded (m : kmem) : Prop :=
  objid_cache_count (mount m) <= OBJID_CACHE_SIZE.

(** The memory after lines 182-192: a new entry at address [brk m],
    holding the [OBJID_CACHE_BULK] ids from [t], linked at the head of
    the list and bound to [dip]; [next] is the TID counter the
    reservation left. *)
Definition after_create (m : kmem) (dip : nat) (t next : Z) : kmem :=
  mkKmem (mkMount next (master_id (mount m))
                  (TAILQ_INSERT_HEAD (objid_cache_list (mount m)) (brk m))
                  (objid_cache_count (mount m) + 1))
         (<[brk m := mkOcp (Some dip) t OBJID_CACHE_BULK]> (ocache m))
         (<[dip := brk m]> (icache m))
         (S (brk m)).

(** The memory after lines 194-198: the entry [e] at address [ocp]
    taken from its owner, if any, and bound to [dip]. *)
Definition after_evict (m : kmem) (dip ocp : nat) (e : hammer_objid_cache) : kmem :=
  mkKmem (mount m)
         (<[ocp := mkOcp (Some dip) (ocp_next_tid e) (ocp_count e)]> (ocache m))
         (<[dip := ocp]> (clear_owner e (icache m)))
         (brk m).

End ObjidCache.

(** [n] ids from [t], [step] apart. *)
Fixpoint objid_range (t step : Z) (n : nat) : list Z :=
  match n with
  | O => []
  | S n' => t :: objid_range (t + step) step n'
  end.

(** A freshly mounted file system: no cache entry, no bound directory. *)
Definition fresh_mount (next master : Z) : kmem :=
  mkKmem (mkMount next master [] 0) ∅ ∅ 0.

(** *** Well-formedness of the cache *)

(** The distance between successive ids of one entry (line 208). *)
Definition objid_step (hmp : hammer_mount) : Z :=
  if master_id hmp <? 0 then 1 else HAMMER_MAX_MASTERS.

(** The last id an entry still holds. *)
Definition ocp_last (hmp : hammer_mount) (e : hammer_objid_cache) : Z :=
  ocp_next_tid e + objid_step hmp * (ocp_count e - 1).

(** [objid_cache_count] counts the entries on the list. *)
Definition count_inv (m : kmem) : Prop :=
  objid_cache_count (mount m) = Z.of_nat (length (objid_cache_list (mount m))).

(** Pointer structure while no call is in progress: the list has no
    repeated entry; a directory's pointer leads to a live entry on the
    list that points back; an entry on the list is live, holds at least
    one id and its back pointer, if set, is matched by the directory;
    live entries lie below [brk] and are on the list. *)
Record objid_cache_wf (m : kmem) : Prop := mkWf {
  wf_nodup : NoDup (objid_cache_list (mount m));
  wf_dir : forall dip ocp, icache m !! dip = Some ocp ->
      ocp ∈ objid_cache_list (mount m) /\
      exists e, ocache m !! ocp = Some e /\ ocp_dip e = Some dip;
  wf_entry : forall ocp, ocp ∈ objid_cache_list (mount m) ->
      exists e, ocache m !! ocp = Some e /\ 1 <= ocp_count e /\
                forall d, ocp_dip e = Some d -> icache m !! d = Some ocp;
  wf_live : forall ocp e, ocache m !! ocp = Some e ->
      (ocp < brk m)%nat /\ ocp ∈ objid_cache_list (mount m)
}.

(** The ids of the entries against the ids already returned:
    - the TID counter is a 64-bit value, and, once any id exists, far
      enough below 2^64 for the next reservation not to wrap;
    - the master id is negative or one of the slots 0 .. 15;
    - every id an entry holds, and every id returned, is at most
      [next_tid];
    - two entries hold ids from ranges that do not meet;
    - no id returned lies in the range an entry still holds;
    - no id was returned twice. *)
Record objid_ids_inv (m : kmem) (issued : list Z) : Prop := mkIds {
  ids_next : 0 <= next_tid (mount m) < 2 ^ 64;
  ids_room : next_tid (mount m) + HAMMER_MAX_MASTERS < 2 ^ 64 \/
             (issued = [] /\ objid_cache_list (mount m) = []);
  ids_master : master_id (mount m) < HAMMER_MAX_MASTERS;
  ids_entry : forall ocp e, ocp ∈ objid_cache_list (mount m) ->
      ocache m !! ocp = Some e ->
      0 <= ocp_next_tid e /\ ocp_last (mount m) e <= next_tid (mount m);
  ids_apart : forall p q e f, p ∈ objid_cache_list (mount m) ->
      q ∈ objid_cache_list (mount m) -> p <> q ->
      ocache m !! p = Some e -> ocache m !! q = Some f ->
      ocp_last (mount m) e < ocp_next_tid f \/ ocp_last (mount m) f < ocp_next_tid e;
  ids_issued : forall x ocp e, x ∈ issued -> ocp ∈ objid_cache_list (mount m) ->
      ocache m !! ocp = Some e ->
      x < ocp_next_tid e \/ ocp_last (mount m) e < x;
  ids_below : forall x, x ∈ issued -> x <= next_tid (mount m);
  ids_nodup : NoDup issued
}.

(** ** Transactions *)

Inductive hammer_transaction_type : Type :=
| HAMMER_TRANS_RO
| HAMMER_TRANS_STD
| HAMMER_TRANS_FLS.

#[global] Instance hammer_transaction_type_eq_dec : EqDecision hammer_transaction_type.
Proof. solve_decision. Defined.

(** [struct hammer_transaction].  [trans->hmp], the pointer back to
    the mount, is left out: the model has one mount. *)
Record hammer_transaction : Type := mkTrans {
  type : hammer_transaction_type;
  rootvol : option nat;      (* NULL or the root volume *)
  tid : Z;
  sync_lock_refs : Z;
  flags : Z;
  time : Z;                  (* microseconds, 64 bits *)
  time32 : Z                 (* seconds, 32 bits *)
}.

(** [getmicrotime(&tv)] (lines 60, 83 and 113): the [getmicrotime] of
    src/dfly_wrap.c, whose body is [panic("getmicrotime")]; nothing is
    stored in [tv].  The type is that of the reading a returning
    [getmicrotime] would store, [tv_sec] and [tv_usec]. *)
Definition getmicrotime : result (Z * Z) := Panic.

(** The [bzero] call on the transaction (line 103): the [bzero] of
    src/dfly_wrap.c, whose body is [panic("bzero")]. *)
Definition bzero : result unit := Panic.

(** The fields the three start routines assign: [vol] and [error] are
    what hammer_get_root_volume returned, [tv_sec] and [tv_usec] what
    [getmicrotime] stored. *)
Definition start_fields (ty : hammer_transaction_type) (vol : option nat)
    (t refs tv_sec tv_usec : Z) : hammer_transaction :=
  mkTrans ty vol t refs 0 (u64 (u64 tv_sec * 1000000 + tv_usec)) (tv_sec mod 2 ^ 32).

(** hammer_start_transaction (lines 45-63). *)
Definition hammer_start_transaction (vol : option nat) (error : Z)
  : result hammer_transaction :=
  if error =? 0 then
    '(tv_sec, tv_usec) ← getmicrotime;
    Ret (start_fields HAMMER_TRANS_STD vol 0 0 tv_sec tv_usec)
  else Panic.

(** hammer_simple_transaction (lines 68-86). *)
Definition hammer_simple_transaction (vol : option nat) (error : Z)
  : result hammer_transaction :=
  if error =? 0 then
    '(tv_sec, tv_usec) ← getmicrotime;
    Ret (start_fields HAMMER_TRANS_RO vol 0 0 tv_sec tv_usec)
  else Panic.

(** hammer_start_transaction_fls (lines 96-116). *)
Definition hammer_start_transaction_fls (hmp : hammer_mount) (vol : option nat)
    (error : Z) : result (hammer_transaction * hammer_mount) :=
  _ ← bzero;
  if error =? 0 then
    '(t, hmp) ← hammer_alloc_tid hmp 1;
    '(tv_sec, tv_usec) ← getmicrotime;
    Ret (start_fields HAMMER_TRANS_FLS vol t 1 tv_sec tv_usec, hmp)
  else Panic.

(** The collaborators hammer_done_transaction calls. *)
Inductive collab_call : Type :=
| CallRelVolume (vol : option nat)   (* hammer_rel_volume(trans->rootvol, 0) *)
| CallWaitReclaims                   (* hammer_inode_waitreclaims(hmp) *)
| CallWaitHard.                      (* hammer_inode_waithard(hmp) *)

#[global] Instance collab_call_eq_dec : EqDecision collab_call.
Proof. solve_decision. Defined.

Section Transaction.
Context `{hammer_h}.

(** The flag tests of lines 130 and 132. *)
Definition flag_set (fl bit : Z) : bool := negb (Z.land fl bit =? 0).

Definition expected_lock_refs (trans : hammer_transaction) : Z :=
  if decide (type trans = HAMMER_TRANS_FLS) then 1 else 0.

(** The waits of lines 129-134. *)
Definition done_waits (trans : hammer_transaction) : list collab_call :=
  if decide (type trans = HAMMER_TRANS_FLS) then []
  else if flag_set (flags trans) HAMMER_TRANSF_NEWINODE then [CallWaitReclaims]
  else if flag_set (flags trans) HAMMER_TRANSF_DIDIO then [CallWaitHard]
  else [].

(** hammer_done_transaction (lines 118-135): the collaborator calls
    made, in order, and the transaction left behind ([Panic] when the
    KKASSERT of line 127 fails). *)
Definition hammer_done_transaction (trans : hammer_transaction)
  : list collab_call * result hammer_transaction :=
  let calls := [CallRelVolume (rootvol trans)] in
  if sync_lock_refs trans =? expected_lock_refs trans then
    (calls ++ done_waits trans,
     Ret (mkTrans (type trans) None (tid trans) 0 (flags trans)
                  (time trans) (time32 trans)))
  else (calls, Panic).

End Transaction.

(** ** Example states *)

(** The configuration of the scenarios of the spec: a pool of one
    entry, four ids to an entry. *)
Definition scenario_h : hammer_h := mkHammerH 1 4 1 2.

(** A pool of two entries, four ids to an entry. *)
Definition two_entry_h : hammer_h := mkHammerH 2 4 1 2.

(** Single master, counter at 100, pool of two: directories 1 and 2
    have drawn one id each (101 and 106).  Entry 0, bound to directory
    1, is at the head of the list; entry 1, bound to directory 2, at
    the tail. *)
Definition two_dirs_mem : kmem :=
  mkKmem (mkMount 110 (-1) [0%nat; 1%nat] 2)
         (<[1%nat := mkOcp (Some 2%nat) 107 3]> (<[0%nat := mkOcp (Some 1%nat) 102 3]> ∅))
         (<[2%nat := 1%nat]> (<[1%nat := 0%nat]> ∅))
         2.

(** Single master, counter at 100, pool of one: directory 7 has drawn
    three of the four ids of its entry. *)
Definition last_id_mem : kmem :=
  mkKmem (mkMount 105 (-1) [0%nat] 1)
         (<[0%nat := mkOcp (Some 7%nat) 104 1]> ∅)
         (<[7%nat := 0%nat]> ∅)
         1.

(** What line 159 computes from a counter [x]: the least multiple of
    [HAMMER_MAX_MASTERS] strictly above [x], in 64 bits. *)
Definition stride_above (x : Z) : Z :=
  u64 (HAMMER_MAX_MASTERS * (x / HAMMER_MAX_MASTERS + 1)).

(** ** Serial runs recording every id handed out *)

(** The master id as [hammer_alloc_tid] adds it to a base: nothing in
    single-master mode. *)
Definition master_bits (hmp : hammer_mount) : Z :=
  if master_id hmp <? 0 then 0 else master_id hmp.

Section MountRun.
Context `{hammer_h}.

(** A serial run as [objid_run], recording every id the mount hands
    out: the object ids and the TIDs drawn one at a time. *)
Fixpoint mount_run (m : kmem) (ops : list objid_op) : list Z * result kmem :=
  match ops with
  | [] => ([], Ret m)
  | OpAlloc dip :: ops' =>
    match hammer_alloc_objid m dip with
    | Ret (tid, m') => let '(ids, r) := mount_run m' ops' in (tid :: ids, r)
    | Panic => ([], Panic)
    | Fault => ([], Fault)
    | Spin => ([], Spin)
    end
  | OpClear dip :: ops' =>
    match hammer_clear_objid m dip with
    | Ret m' => mount_run m' ops'
    | Panic => ([], Panic)
    | Fault => ([], Fault)
    | Spin => ([], Spin)
    end
  | OpAllocTid :: ops' =>
    match hammer_alloc_tid (mount m) 1 with
    | Ret (tid, hmp) =>
      let '(ids, r) := mount_run (mkKmem hmp (ocache m) (icache m) (brk m)) ops' in
      (tid :: ids, r)
    | Panic => ([], Panic)
    | Fault => ([], Fault)
    | Spin => ([], Spin)
    end
  end.

End MountRun.

(** The TID counter is a 64-bit value with room for one more stride,
    and the master id is below 16. *)
Definition counter_ok (m : kmem) : Prop :=
  0 <= next_tid (mount m) /\ next_tid (mount m) + HAMMER_MAX_MASTERS < 2 ^ 64 /\
  master_id (mount m) < HAMMER_MAX_MASTERS.

(** Every live entry's next id carries the master id in its low bits. *)
Definition entries_carry_master (m : kmem) : Prop :=
  forall p e, ocache m !! p = Some e ->
              ocp_next_tid e mod HAMMER_MAX_MASTERS = master_id (mount m).

(** Single master, counter at 100, pool of one: directory 7 has drawn
    one id of its entry, and one TID was drawn after it. *)
Definition after_tid_mem : kmem :=
  mkKmem (mkMount 107 (-1) [0%nat] 1)
         (<[0%nat := mkOcp (Some 7%nat) 102 3]> ∅)
         (<[7%nat := 0%nat]> ∅)
         1.

(** * Theorems: the TID allocator *)

Lemma tid_mask_value : u64 (Z.lnot (HAMMER_MAX_MASTERS - 1)) = 2 ^ 64 - 16.
Proof. reflexivity. Qed.

Lemma land_tid_mask (x : Z) :
  0 <= x < 2 ^ 64 ->
  Z.land x (u64 (Z.lnot (HAMMER_MAX_MASTERS - 1))) = 16 * (x / 16).
Proof.
  intros Hx. unfold u64, HAMMER_MAX_MASTERS.
  change (16 - 1) with (Z.ones 4).
  rewrite <- (Z.land_ones (Z.lnot (Z.ones 4)) 64) by lia.
  rewrite (Z.land_comm (Z.lnot _)), Z.land_assoc, Z.land_ones by lia.
  rewrite (Z.mod_small x) by lia.
  rewrite <- Z.ldiff_land, Z.ldiff_ones_r by lia.
  rewrite Z.shiftr_div_pow2, Z.shiftl_mul_pow2 by lia.
  change (2 ^ 4) with 16. lia.
Qed.

Lemma u64_range (z : Z) : 0 <= u64 z < 2 ^ 64.
Proof. unfold u64. apply Z.mod_pos_bound. lia. Qed.

Lemma u64_small (z : Z) : 0 <= z < 2 ^ 64 -> u64 z = z.
Proof. intros. unfold u64. apply Z.mod_small. lia. Qed.

Lemma alloc_tid_value_range (hmp : hammer_mount) :
  master_id hmp < 0 -> 0 <= alloc_tid_value hmp < 2 ^ 64.
Proof.
  intros Hm. unfold alloc_tid_value.
  destruct (Z.ltb_spec (master_id hmp) 0); [apply u64_range | lia].
Qed.

(** Both branches of [hammer_alloc_tid] test and return
    [alloc_tid_value]. *)
Lemma hammer_alloc_tid_unfold (hmp : hammer_mount) (count : Z) :
  hammer_alloc_tid hmp count =
  if HAMMER_TID_LIMIT <=? alloc_tid_value hmp then Panic
  else Ret (alloc_tid_value hmp,
            set_next_tid hmp
              (if master_id hmp <? 0 then u64 (alloc_tid_value hmp + count)
               else u64 (Z.land (u64 (next_tid hmp + HAMMER_MAX_MASTERS))
                                (u64 (Z.lnot (HAMMER_MAX_MASTERS - 1)))
                         + count * HAMMER_MAX_MASTERS))).
Proof.
  unfold hammer_alloc_tid, alloc_tid_value.
  destruct (master_id hmp <? 0); reflexivity.
Qed.

(** C6.  [hammer_alloc_tid] panics exactly when the id it is about to
    return is at or above 0xFFFFFFFFFF000000, and returns that id
    exactly when it is below; it has no other outcome. *)
Theorem hammer_alloc_tid_panic_iff (hmp : hammer_mount) (count : Z) :
  (hammer_alloc_tid hmp count = Panic <-> HAMMER_TID_LIMIT <= alloc_tid_value hmp) /\
  ((exists hmp', hammer_alloc_tid hmp count = Ret (alloc_tid_value hmp, hmp'))
   <-> alloc_tid_value hmp < HAMMER_TID_LIMIT) /\
  hammer_alloc_tid hmp count <> Fault /\
  hammer_alloc_tid hmp count <> Spin.
Proof.
  rewrite hammer_alloc_tid_unfold.
  destruct (Z.leb_spec HAMMER_TID_LIMIT (alloc_tid_value hmp)) as [Hge | Hlt].
  - repeat split; try congruence; try lia.
    intros [hmp' Heq]. discriminate Heq.
  - repeat split; try congruence; try lia.
    intros _. eexists. reflexivity.
Qed.

(** The single-master branch on a counter that does not wrap. *)
Lemma hammer_alloc_tid_single (hmp : hammer_mount) (count : Z) :
  master_id hmp < 0 ->
  0 <= next_tid hmp -> next_tid hmp + 1 < HAMMER_TID_LIMIT ->
  0 <= count < 2 ^ 24 ->
  hammer_alloc_tid hmp count =
  Ret (next_tid hmp + 1, set_next_tid hmp (next_tid hmp + 1 + count)).
Proof.
  intros Hm H0 Hlim Hc. unfold hammer_alloc_tid, HAMMER_TID_LIMIT in *.
  destruct (Z.ltb_spec (master_id hmp) 0); [| lia].
  rewrite (u64_small (next_tid hmp + 1)) by lia.
  rewrite u64_small by lia.
  destruct (Z.leb_spec 0xFFFFFFFFFF000000 (next_tid hmp + 1)); [lia | reflexivity].
Qed.

(** What a returned single-master call leaves behind, for any 64-bit
    counter: the counter may wrap once, to a base of 0. *)
Lemma hammer_alloc_tid_single_ret (hmp hmp' : hammer_mount) (count b : Z) :
  master_id hmp < 0 -> 0 <= next_tid hmp < 2 ^ 64 -> 0 <= count < 2 ^ 24 ->
  hammer_alloc_tid hmp count = Ret (b, hmp') ->
  0 <= b < HAMMER_TID_LIMIT /\ next_tid hmp' = b + count /\
  master_id hmp' = master_id hmp /\
  (next_tid hmp < 2 ^ 64 - 1 -> b = next_tid hmp + 1).
Proof.
  intros Hm Hn Hc. rewrite hammer_alloc_tid_unfold.
  pose proof (alloc_tid_value_range hmp Hm) as Hv.
  destruct (Z.leb_spec HAMMER_TID_LIMIT (alloc_tid_value hmp)) as [| Hlt]; [discriminate |].
  intros [= <- <-]. simpl.
  destruct (Z.ltb_spec (master_id hmp) 0); [| lia].
  unfold HAMMER_TID_LIMIT in *.
  rewrite u64_small by lia.
  repeat split; try lia.
  intros Hsmall. unfold alloc_tid_value.
  destruct (Z.ltb_spec (master_id hmp) 0); [| lia].
  apply u64_small. lia.
Qed.

Lemma alloc_tid_seq_above (counts : list Z) : forall (hmp : hammer_mount) (r : Z * Z),
  master_id hmp < 0 -> 0 <= next_tid hmp < 2 ^ 64 - 1 ->
  Forall (fun c => 0 <= c < 2 ^ 24) counts ->
  r ∈ alloc_tid_seq hmp counts -> next_tid hmp < fst r.
Proof.
  induction counts as [| c cs IH]; intros hmp r Hm Hn Hall; simpl.
  - intros Hin. inversion Hin.
  - inversion Hall as [| ? ? Hc Hcs]; subst.
    destruct (hammer_alloc_tid hmp c) as [[b hmp'] | | |] eqn:Hcall;
      try (intros Hin; inversion Hin; fail).
    destruct (hammer_alloc_tid_single_ret hmp hmp' c b) as (Hb & Hn' & Hm' & Hbase);
      [lia | lia | lia | assumption |].
    unfold HAMMER_TID_LIMIT in Hb.
    intros Hin. apply elem_of_cons in Hin as [-> | Hin].
    + simpl. lia.
    + apply IH in Hin; [lia | lia | lia | assumption].
Qed.

Lemma alloc_tid_seq_ordered (counts : list Z) : forall (hmp : hammer_mount)
    (i j : nat) (ri rj : Z * Z),
  master_id hmp < 0 -> 0 <= next_tid hmp < 2 ^ 64 ->
  Forall (fun c => 0 <= c < 2 ^ 24) counts ->
  (i < j)%nat ->
  alloc_tid_seq hmp counts !! i = Some ri ->
  alloc_tid_seq hmp counts !! j = Some rj ->
  0 <= snd ri /\ fst ri + snd ri < fst rj.
Proof.
  induction counts as [| c cs IH]; intros hmp i j ri rj Hm Hn Hall Hij; simpl.
  - intros Hi. discriminate Hi.
  - inversion Hall as [| ? ? Hc Hcs]; subst.
    destruct (hammer_alloc_tid hmp c) as [[b hmp'] | | |] eqn:Hcall;
      try (intros Hi; discriminate Hi).
    destruct (hammer_alloc_tid_single_ret hmp hmp' c b) as (Hb & Hn' & Hm' & _);
      [lia | lia | lia | assumption |].
    unfold HAMMER_TID_LIMIT in Hb.
    destruct j as [| j]; [lia |].
    destruct i as [| i]; simpl.
    + intros [= <-] Hj. simpl.
      apply list_elem_of_lookup_2 in Hj.
      apply alloc_tid_seq_above in Hj; [lia | lia | lia | assumption].
    + intros Hi Hj. apply (IH hmp' i j); [lia | lia | assumption | lia | assumption | assumption].
Qed.

(** C1, as amended.  For single-master allocations with counts in
    [0, 2^24) run serially on one mount, the bases of the calls that
    return strictly increase with call order and the ranges
    [base, base + count) are pairwise disjoint. *)
Theorem alloc_tid_seq_increasing_disjoint (hmp : hammer_mount) (counts : list Z) :
  master_id hmp < 0 -> 0 <= next_tid hmp < 2 ^ 64 ->
  Forall (fun c => 0 <= c < 2 ^ 24) counts ->
  bases_increase (alloc_tid_seq hmp counts) /\
  ranges_pairwise_disjoint (alloc_tid_seq hmp counts).
Proof.
  intros Hm Hn Hall. split.
  - intros i j ri rj Hij Hi Hj.
    destruct (alloc_tid_seq_ordered counts hmp i j ri rj); trivial. lia.
  - intros i j ri rj Hij Hi Hj x [Hx1 Hx2].
    destruct (alloc_tid_seq_ordered counts hmp i j ri rj); trivial.
    unfold in_range in *. lia.
Qed.

(** A run the theorem covers: five allocations from a counter of 100. *)
Lemma alloc_tid_seq_increasing_disjoint_witness :
  bases_increase (alloc_tid_seq (mkMount 100 (-1) [] 0) [1; 5; 0; 100000; 1]) /\
  ranges_pairwise_disjoint (alloc_tid_seq (mkMount 100 (-1) [] 0) [1; 5; 0; 100000; 1]).
Proof.
  apply (alloc_tid_seq_increasing_disjoint (mkMount 100 (-1) [] 0) [1; 5; 0; 100000; 1]).
  - simpl. lia.
  - simpl. lia.
  - repeat constructor; lia.
Defined.

(** C1 as stated fails for a count of 2^24 next to the limit: the call
    returns 0xFFFFFFFFFEFFFFFF, the counter reaches 2^64 - 1, and the
    next call wraps to a base of 0.  It fails for a negative count too
    ([count] is an [int]): the counter moves back and the next base is
    lower. *)
Lemma alloc_tid_seq_counterexample :
  alloc_tid_seq (mkMount 0xFFFFFFFFFEFFFFFE (-1) [] 0) [16777216; 1]
    = [(0xFFFFFFFFFEFFFFFF, 16777216); (0, 1)] /\
  ~ bases_increase (alloc_tid_seq (mkMount 0xFFFFFFFFFEFFFFFE (-1) [] 0) [16777216; 1]) /\
  alloc_tid_seq (mkMount 100 (-1) [] 0) [-5; 1] = [(101, -5); (97, 1)] /\
  ~ bases_increase (alloc_tid_seq (mkMount 100 (-1) [] 0) [-5; 1]).
Proof.
  split; [reflexivity |]. split; [| split; [reflexivity |]].
  - intros Hinc.
    specialize (Hinc 0%nat 1%nat (0xFFFFFFFFFEFFFFFF, 16777216) (0, 1)).
    simpl in Hinc. specialize (Hinc ltac:(lia) eq_refl eq_refl). lia.
  - intros Hinc.
    specialize (Hinc 0%nat 1%nat (101, -5) (97, 1)).
    simpl in Hinc. specialize (Hinc ltac:(lia) eq_refl eq_refl). lia.
Qed.

(** C4, as amended.  In single-master mode with [next_tid = 100],
    [allocate(1)] returns 101 and leaves [next_tid = 102]; the
    following [allocate(5)] returns 103 and leaves [next_tid = 108]. *)
Theorem alloc_tid_single_master_scenario (l : list nat) (c : Z) :
  hammer_alloc_tid (mkMount 100 (-1) l c) 1 = Ret (101, mkMount 102 (-1) l c) /\
  hammer_alloc_tid (mkMount 102 (-1) l c) 5 = Ret (103, mkMount 108 (-1) l c).
Proof. split; reflexivity. Qed.

(** C4 as stated fails in its second call: from [next_tid = 102] the
    base is 103, not 102, and the counter ends at 108, not 107. *)
Lemma alloc_tid_single_master_counterexample :
  hammer_alloc_tid (mkMount 100 (-1) [] 0) 1 = Ret (101, mkMount 102 (-1) [] 0) /\
  hammer_alloc_tid (mkMount 102 (-1) [] 0) 5 = Ret (103, mkMount 108 (-1) [] 0) /\
  hammer_alloc_tid (mkMount 102 (-1) [] 0) 5 <> Ret (102, mkMount 107 (-1) [] 0).
Proof. repeat split; discriminate. Qed.

Ltac div_lia := Z.to_euclidean_division_equations; lia.

Lemma stride_above_land (x : Z) :
  0 <= x < 2 ^ 64 ->
  Z.land (u64 (x + HAMMER_MAX_MASTERS)) (u64 (Z.lnot (HAMMER_MAX_MASTERS - 1)))
  = stride_above x.
Proof.
  intros Hx. rewrite land_tid_mask by apply u64_range.
  unfold stride_above, u64, HAMMER_MAX_MASTERS. div_lia.
Qed.

Lemma stride_above_bounds (x : Z) :
  0 <= x -> x + HAMMER_MAX_MASTERS < 2 ^ 64 ->
  stride_above x mod HAMMER_MAX_MASTERS = 0 /\
  x < stride_above x <= x + HAMMER_MAX_MASTERS.
Proof.
  unfold stride_above, u64, HAMMER_MAX_MASTERS. intros H0 Hx. div_lia.
Qed.

(** C3, as amended.  In multi-master mode the base is the least
    multiple of [HAMMER_MAX_MASTERS] strictly above [next_tid] (in 64
    bits): it is [round_up(next_tid, MAX_MASTERS)] only when [next_tid]
    is not itself a multiple.  The call sets [next_tid] to
    [base + count * MAX_MASTERS] and returns [base | master_id], unless
    that id is at or above the limit, when it panics.  With
    [master_id = 2] and [next_tid = 100], [allocate(1)] returns 114 and
    leaves [next_tid = 128]. *)
Theorem hammer_alloc_tid_multi_master (hmp : hammer_mount) (count : Z) :
  0 <= master_id hmp -> 0 <= next_tid hmp < 2 ^ 64 ->
  - 2 ^ 27 <= count < 2 ^ 27 ->
  hammer_alloc_tid hmp count =
    (if HAMMER_TID_LIMIT <=? Z.lor (stride_above (next_tid hmp)) (master_id hmp)
     then Panic
     else Ret (Z.lor (stride_above (next_tid hmp)) (master_id hmp),
               set_next_tid hmp
                 (u64 (stride_above (next_tid hmp) + count * HAMMER_MAX_MASTERS)))) /\
  (next_tid hmp + HAMMER_MAX_MASTERS < 2 ^ 64 ->
   stride_above (next_tid hmp) mod HAMMER_MAX_MASTERS = 0 /\
   next_tid hmp < stride_above (next_tid hmp) <= next_tid hmp + HAMMER_MAX_MASTERS) /\
  (next_tid hmp mod HAMMER_MAX_MASTERS <> 0 ->
   next_tid hmp + HAMMER_MAX_MASTERS < 2 ^ 64 ->
   stride_above (next_tid hmp) = spec_round_up (next_tid hmp) HAMMER_MAX_MASTERS) /\
  hammer_alloc_tid (mkMount 100 2 (objid_cache_list hmp) (objid_cache_count hmp)) 1
    = Ret (114, mkMount 128 2 (objid_cache_list hmp) (objid_cache_count hmp)).
Proof.
  intros Hm Hn Hc. repeat split.
  - unfold hammer_alloc_tid.
    destruct (Z.ltb_spec (master_id hmp) 0); [lia |].
    rewrite stride_above_land by lia. reflexivity.
  - apply stride_above_bounds; lia.
  - apply stride_above_bounds; lia.
  - apply stride_above_bounds; lia.
  - intros Hmod Hroom. unfold stride_above, spec_round_up, u64, HAMMER_MAX_MASTERS in *.
    div_lia.
Qed.

(** The scenario of the spec, through the theorem. *)
Lemma hammer_alloc_tid_multi_master_witness :
  hammer_alloc_tid (mkMount 100 2 [] 0) 1 = Ret (114, mkMount 128 2 [] 0).
Proof.
  destruct (hammer_alloc_tid_multi_master (mkMount 100 2 [] 0) 1) as (_ & _ & _ & Hs).
  - simpl. lia.
  - simpl. lia.
  - lia.
  - exact Hs.
Defined.

(** C3 as stated fails when [next_tid] is a multiple of
    [HAMMER_MAX_MASTERS]: [round_up(112, 16)] is 112, which would give
    114 and a counter of 128, but the code steps to the next stride and
    returns 130 with a counter of 144. *)
Lemma hammer_alloc_tid_round_up_counterexample :
  spec_round_up 112 HAMMER_MAX_MASTERS = 112 /\
  hammer_alloc_tid (mkMount 112 2 [] 0) 1 = Ret (130, mkMount 144 2 [] 0) /\
  hammer_alloc_tid (mkMount 112 2 [] 0) 1 <>
    Ret (Z.lor (spec_round_up 112 HAMMER_MAX_MASTERS) 2,
         mkMount (spec_round_up 112 HAMMER_MAX_MASTERS + 1 * HAMMER_MAX_MASTERS) 2 [] 0).
Proof. repeat split; discriminate. Qed.

Lemma hammer_alloc_tid_mount (hmp hmp' : hammer_mount) (count t : Z) :
  hammer_alloc_tid hmp count = Ret (t, hmp') ->
  hmp' = set_next_tid hmp (next_tid hmp').
Proof.
  rewrite hammer_alloc_tid_unfold.
  destruct (HAMMER_TID_LIMIT <=? alloc_tid_value hmp); [discriminate |].
  intros [= _ <-]. reflexivity.
Qed.

Lemma lor_stride (k mid : Z) :
  0 <= mid < HAMMER_MAX_MASTERS ->
  Z.lor (HAMMER_MAX_MASTERS * k) mid = HAMMER_MAX_MASTERS * k + mid.
Proof.
  unfold HAMMER_MAX_MASTERS. intros Hmid.
  assert (Hdis : Z.land (16 * k) mid = 0).
  { replace (16 * k) with (Z.ldiff (16 * k) (Z.ones 4)).
    2:{ rewrite Z.ldiff_ones_r, Z.shiftr_div_pow2, Z.shiftl_mul_pow2 by lia.
        change (2 ^ 4) with 16. div_lia. }
    replace mid with (Z.land (Z.ones 4) mid) at 1.
    2:{ rewrite Z.land_comm, Z.land_ones by lia. apply Z.mod_small. simpl. lia. }
    rewrite Z.land_assoc, Z.land_ldiff. apply Z.land_0_l. }
  rewrite <- Z.lxor_lor by assumption. symmetry. by apply Z.add_nocarry_lxor.
Qed.

Lemma lor_stride_above (n mid : Z) :
  0 <= n < 2 ^ 64 -> 0 <= mid < HAMMER_MAX_MASTERS ->
  Z.lor (stride_above n) mid = stride_above n + mid.
Proof.
  intros Hn Hmid.
  assert (Hk : stride_above n = HAMMER_MAX_MASTERS * (stride_above n / HAMMER_MAX_MASTERS)).
  { unfold stride_above, u64, HAMMER_MAX_MASTERS. div_lia. }
  rewrite Hk at 1. rewrite lor_stride by assumption. lia.
Qed.


(** What a returned reservation of [count] ids guarantees. *)
Lemma hammer_alloc_tid_reserve (hmp hmp' : hammer_mount) (count t : Z) :
  0 <= next_tid hmp < 2 ^ 64 -> master_id hmp < HAMMER_MAX_MASTERS ->
  1 <= count < 2 ^ 20 ->
  hammer_alloc_tid hmp count = Ret (t, hmp') ->
  hmp' = set_next_tid hmp (next_tid hmp') /\
  0 <= t /\ t + objid_step hmp * (count - 1) <= next_tid hmp' /\
  0 <= next_tid hmp' /\ next_tid hmp' + HAMMER_MAX_MASTERS < 2 ^ 64 /\
  (next_tid hmp + HAMMER_MAX_MASTERS < 2 ^ 64 ->
   next_tid hmp < t /\ next_tid hmp <= next_tid hmp').
Proof.
  intros Hn Hmid Hc Hret. split; [eapply hammer_alloc_tid_mount; eauto |].
  revert Hret. unfold hammer_alloc_tid, objid_step.
  destruct (Z.ltb_spec (master_id hmp) 0) as [Hs | Hm].
  - destruct (Z.leb_spec HAMMER_TID_LIMIT (u64 (next_tid hmp + 1))) as [| Hlt]; [discriminate |].
    intros [= <- <-]. simpl.
    unfold HAMMER_TID_LIMIT, HAMMER_MAX_MASTERS, u64 in *. div_lia.
  - rewrite stride_above_land by lia.
    rewrite lor_stride_above by lia.
    destruct (Z.leb_spec HAMMER_TID_LIMIT (stride_above (next_tid hmp) + master_id hmp))
      as [| Hlt]; [discriminate |].
    intros [= <- <-]. simpl.
    unfold stride_above, HAMMER_TID_LIMIT, HAMMER_MAX_MASTERS, u64 in *. div_lia.
Qed.

(** * Theorems: the end of a transaction *)

Section TransactionFacts.
Context `{hammer_h}.

Lemma expected_lock_refs_by_kind (trans : hammer_transaction) :
  expected_lock_refs trans =
  match type trans with
  | HAMMER_TRANS_FLS => 1
  | HAMMER_TRANS_STD | HAMMER_TRANS_RO => 0
  end.
Proof. unfold expected_lock_refs. destruct (type trans); reflexivity. Qed.

(** C7.  [hammer_done_transaction] trips its assertion exactly when
    [sync_lock_refs] differs from the value expected for the kind (1
    for a flusher transaction, 0 for a standard or read-only one);
    otherwise it completes with [sync_lock_refs] reset to 0. *)
Theorem hammer_done_transaction_assert (trans : hammer_transaction) :
  (snd (hammer_done_transaction trans) = Panic
   <-> sync_lock_refs trans <>
       match type trans with
       | HAMMER_TRANS_FLS => 1
       | HAMMER_TRANS_STD | HAMMER_TRANS_RO => 0
       end) /\
  ((exists trans', snd (hammer_done_transaction trans) = Ret trans' /\
                   sync_lock_refs trans' = 0 /\ rootvol trans' = None /\
                   type trans' = type trans /\ flags trans' = flags trans /\
                   tid trans' = tid trans)
   <-> sync_lock_refs trans =
       match type trans with
       | HAMMER_TRANS_FLS => 1
       | HAMMER_TRANS_STD | HAMMER_TRANS_RO => 0
       end).
Proof.
  rewrite <- expected_lock_refs_by_kind. unfold hammer_done_transaction.
  destruct (Z.eqb_spec (sync_lock_refs trans) (expected_lock_refs trans)) as [He | Hne];
    simpl; split; split; try congruence.
  - intros _. eexists. repeat split.
  - intros (trans' & Hret & _). discriminate Hret.
Qed.

Lemma done_calls_unfold (trans : hammer_transaction) :
  fst (hammer_done_transaction trans) =
  CallRelVolume (rootvol trans) ::
  (if sync_lock_refs trans =? expected_lock_refs trans then done_waits trans else []).
Proof.
  unfold hammer_done_transaction.
  destruct (sync_lock_refs trans =? expected_lock_refs trans); reflexivity.
Qed.

(** C8, as amended.  [hammer_done_transaction] calls the
    inode-reclaim wait iff the assertion on [sync_lock_refs] passes,
    the kind is not flusher and the NewInode flag is set; it calls the
    hard-IO wait iff the assertion passes, the kind is not flusher,
    NewInode is not set and DidIO is set.  In particular a flusher
    transaction makes neither call, whatever its flags. *)
Theorem hammer_done_transaction_waits (trans : hammer_transaction) :
  (CallWaitReclaims ∈ fst (hammer_done_transaction trans)
   <-> sync_lock_refs trans = expected_lock_refs trans /\
       type trans <> HAMMER_TRANS_FLS /\
       flag_set (flags trans) HAMMER_TRANSF_NEWINODE = true) /\
  (CallWaitHard ∈ fst (hammer_done_transaction trans)
   <-> sync_lock_refs trans = expected_lock_refs trans /\
       type trans <> HAMMER_TRANS_FLS /\
       flag_set (flags trans) HAMMER_TRANSF_NEWINODE = false /\
       flag_set (flags trans) HAMMER_TRANSF_DIDIO = true).
Proof.
  rewrite done_calls_unfold. unfold done_waits.
  destruct (Z.eqb_spec (sync_lock_refs trans) (expected_lock_refs trans)) as [He | Hne];
    destruct (decide (type trans = HAMMER_TRANS_FLS)) as [Hf | Hf];
    destruct (flag_set (flags trans) HAMMER_TRANSF_NEWINODE);
    destruct (flag_set (flags trans) HAMMER_TRANSF_DIDIO);
    split; split; intros Hx;
    repeat match goal with
           | Hin : _ ∈ _ :: _ |- _ => apply elem_of_cons in Hin as [Hin | Hin]; try discriminate Hin
           | Hin : _ ∈ [] |- _ => inversion Hin
           | Hand : _ /\ _ |- _ => destruct Hand
           end;
    try congruence; try (repeat split; congruence);
    repeat constructor.
Qed.

End TransactionFacts.

(** C8 as stated fails when the assertion fails: a standard
    transaction with the NewInode flag set and [sync_lock_refs = 1]
    panics at line 127, before either wait is reached. *)
Lemma hammer_done_transaction_waits_counterexample :
  let cfg := mkHammerH 1024 100000 1 2 in
  let trans := mkTrans HAMMER_TRANS_STD (Some 0%nat) 0 1 1 0 0 in
  type trans <> HAMMER_TRANS_FLS /\
  flag_set (flags trans) (@HAMMER_TRANSF_NEWINODE cfg) = true /\
  @hammer_done_transaction cfg trans = ([CallRelVolume (Some 0%nat)], Panic) /\
  ~ (CallWaitReclaims ∈ fst (@hammer_done_transaction cfg trans)).
Proof.
  simpl. repeat split; try discriminate.
  intros Hin. apply elem_of_cons in Hin as [Hin | Hin]; [discriminate | inversion Hin].
Qed.

(** * Theorems: the object id cache *)

Lemma TAILQ_REMOVE_head (l : list nat) (p : nat) : TAILQ_REMOVE (p :: l) p = l.
Proof. simpl. destruct (decide (p = p)); congruence. Qed.

Lemma TAILQ_REMOVE_notin (l : list nat) (p : nat) : p ∉ l -> TAILQ_REMOVE l p = l.
Proof.
  induction l as [| q l IH]; simpl; intros Hnot; [reflexivity |].
  apply not_elem_of_cons in Hnot as [Hne Hnot].
  destruct (decide (q = p)); [congruence |]. f_equal. auto.
Qed.

Lemma elem_of_TAILQ_REMOVE (l : list nat) (p x : nat) :
  NoDup l -> x ∈ TAILQ_REMOVE l p <-> x ∈ l /\ x <> p.
Proof.
  induction l as [| q l IH]; simpl; intros Hnd.
  - split; [intros Hx; inversion Hx | intros [Hx _]; inversion Hx].
  - apply NoDup_cons in Hnd as [Hq Hnd].
    destruct (decide (q = p)) as [-> | Hne].
    + rewrite elem_of_cons. split.
      * intros Hx. split; [by right |]. intros ->. contradiction.
      * intros [[-> | Hx] Hxp]; [contradiction | assumption].
    + rewrite !elem_of_cons, IH by assumption. intuition congruence.
Qed.

Lemma NoDup_TAILQ_REMOVE (l : list nat) (p : nat) :
  NoDup l -> NoDup (TAILQ_REMOVE l p).
Proof.
  induction l as [| q l IH]; simpl; intros Hnd; [constructor |].
  apply NoDup_cons in Hnd as [Hq Hnd].
  destruct (decide (q = p)); [assumption |].
  apply NoDup_cons. split; [| auto].
  rewrite elem_of_TAILQ_REMOVE by assumption. tauto.
Qed.

Lemma length_TAILQ_REMOVE (l : list nat) (p : nat) :
  p ∈ l -> S (length (TAILQ_REMOVE l p)) = length l.
Proof.
  induction l as [| q l IH]; simpl; intros Hin; [inversion Hin |].
  destruct (decide (q = p)); [reflexivity |].
  apply elem_of_cons in Hin as [-> | Hin]; [congruence |].
  simpl. f_equal. auto.
Qed.

Section CacheFacts.
Context `{hammer_h}.

Lemma brk_not_listed (m : kmem) :
  objid_cache_wf m -> (brk m ∉ objid_cache_list (mount m)) /\ ocache m !! brk m = None.
Proof.
  intros Hwf. split.
  - intros Hin. destruct (wf_entry m Hwf _ Hin) as (e & He & _).
    destruct (wf_live m Hwf _ _ He). lia.
  - destruct (ocache m !! brk m) as [e |] eqn:He; [| reflexivity].
    destruct (wf_live m Hwf _ _ He). lia.
Qed.

Lemma lookup_clear_owner (e : hammer_objid_cache) (ic : gmap nat nat) (d : nat) :
  clear_owner e ic !! d = if decide (ocp_dip e = Some d) then None else ic !! d.
Proof.
  unfold clear_owner. destruct (ocp_dip e) as [d0 |].
  - rewrite lookup_delete. destruct (decide (d0 = d)) as [-> | Hne].
    + rewrite decide_True; done.
    + rewrite decide_False; [done | congruence].
  - rewrite decide_False; done.
Qed.

Lemma objid_cache_fill_wf (m m1 : kmem) (dip : nat) :
  1 <= OBJID_CACHE_BULK ->
  objid_cache_wf m -> count_inv m -> icache m !! dip = None ->
  objid_cache_fill m dip = Ret m1 ->
  objid_cache_wf m1 /\ count_inv m1 /\ is_Some (icache m1 !! dip).
Proof.
  intros Hbulk Hwf Hcnt Hnone. unfold objid_cache_fill.
  destruct (brk_not_listed m Hwf) as [Hfresh Hdead].
  destruct (Z.ltb_spec (objid_cache_count (mount m)) OBJID_CACHE_SIZE) as [Hroom | Hfull].
  - destruct (hammer_alloc_tid (mount m) OBJID_CACHE_BULK) as [[t hmp] | | |] eqn:Halloc;
      simpl; try discriminate.
    apply hammer_alloc_tid_mount in Halloc. rewrite Halloc, Hnone.
    intros [= <-]. destruct Hwf as [Hnd Hdir Hent Hlive].
    unfold count_inv in *.
    destruct m as [[nt mid l c] oc ic b]; simpl in *.
    split; [constructor; simpl | split].
    + apply NoDup_cons. auto.
    + intros d q. rewrite lookup_insert. case_decide as Hd.
      * intros [= <-]. split; [left |]. eexists. rewrite lookup_insert_eq. subst; eauto.
      * intros Hq. destruct (Hdir d q Hq) as (Hin & e & He & Hed).
        split; [by right |]. exists e. rewrite lookup_insert_ne; [eauto |].
        intros ->. contradiction.
    + intros q Hq. apply elem_of_cons in Hq as [-> | Hq].
      * eexists. rewrite lookup_insert_eq. simpl. repeat split; simpl; [lia |].
        intros d [= <-]. apply lookup_insert_eq.
      * destruct (Hent q Hq) as (e & He & Hc & Hback).
        exists e. rewrite lookup_insert_ne by (intros ->; contradiction).
        repeat split; trivial. intros d Hd.
        rewrite lookup_insert_ne; [auto |]. intros <-.
        apply Hback in Hd. congruence.
    + intros q e. rewrite lookup_insert. case_decide as Hq.
      * intros _. subst q. split; [lia | left].
      * intros He. destruct (Hlive q e He). split; [lia | by right].
    + simpl. lia.
    + simpl. rewrite lookup_insert_eq. eauto.
  - destruct (objid_cache_list (mount m)) as [| p l'] eqn:Hl; simpl; [discriminate |].
    destruct (ocache m !! p) as [e |] eqn:He; [| discriminate].
    intros [= <-]. destruct Hwf as [Hnd Hdir Hent Hlive].
    unfold count_inv in *. rewrite Hl in *.
    assert (Hp : p ∈ p :: l') by left.
    destruct (Hent p Hp) as (e' & He' & Hc & Hback).
    assert (e' = e) by congruence. subst e'.
    split; [constructor; simpl; rewrite ?Hl | split].
    + assumption.
    + intros d q. rewrite lookup_insert. case_decide as Hd.
      * intros [= <-]. split; [left |]. eexists. rewrite lookup_insert_eq. subst; eauto.
      * rewrite lookup_clear_owner. case_decide as Hown; [discriminate |].
        intros Hq. destruct (Hdir d q Hq) as (Hin & f & Hf & Hfd).
        split; [assumption |]. exists f. rewrite lookup_insert_ne; [eauto |].
        intros ->. congruence.
    + intros q Hq. rewrite lookup_insert. case_decide as Hpq.
      * subst q. eexists. split; [reflexivity |]. simpl. split; [assumption |].
        intros d [= <-]. apply lookup_insert_eq.
      * destruct (Hent q Hq) as (f & Hf & Hfc & Hfback).
        exists f. repeat split; trivial. intros d Hd.
        pose proof (Hfback d Hd) as Hicd.
        rewrite lookup_insert_ne by congruence.
        rewrite lookup_clear_owner. case_decide as Hown; [| assumption].
        apply Hback in Hown. congruence.
    + intros q f. rewrite lookup_insert. case_decide as Hpq.
      * intros _. subst q. destruct (Hlive p e He). split; assumption.
      * apply Hlive.
    + simpl. rewrite Hl. assumption.
    + simpl. rewrite lookup_insert_eq. eauto.
Qed.

(** [objid_take] with the placeholder [kfree] unfolded: the draw of an
    entry's last id ends in the panic of [dfly_kfree]. *)
Lemma objid_take_unfold (m : kmem) (dip ocp : nat) :
  objid_take m dip ocp =
  match ocache m !! ocp with
  | None => Fault
  | Some e =>
    if ocp_count e - 1 =? 0 then Panic
    else Ret (ocp_next_tid e,
              mkKmem (set_objid_cache_list (mount m)
                        (TAILQ_INSERT_TAIL (TAILQ_REMOVE (objid_cache_list (mount m)) ocp) ocp))
                     (<[ocp := mkOcp (ocp_dip e) (u64 (ocp_next_tid e + objid_step (mount m)))
                                     (ocp_count e - 1)]> (ocache m))
                     (icache m) (brk m))
  end.
Proof.
  unfold objid_take, kfree, dfly_kfree, objid_step.
  destruct (ocache m !! ocp); [| reflexivity].
  destruct (ocp_count _ - 1 =? 0); reflexivity.
Qed.

Lemma objid_take_wf (m m2 : kmem) (dip p : nat) (t : Z) :
  objid_cache_wf m -> count_inv m -> icache m !! dip = Some p ->
  objid_take m dip p = Ret (t, m2) ->
  objid_cache_wf m2 /\ count_inv m2.
Proof.
  intros Hwf Hcnt Hdip. unfold objid_take, kfree, dfly_kfree.
  destruct Hwf as [Hnd Hdir Hent Hlive].
  destruct (Hdir dip p Hdip) as (Hp & e & He & Hed). rewrite He.
  destruct (Hent p Hp) as (e' & He' & Hc & Hback).
  assert (e' = e) by congruence. subst e'.
  pose proof (length_TAILQ_REMOVE _ _ Hp) as Hlen.
  unfold count_inv in *.
  destruct m as [[nt mid l c] oc ic b]; simpl in *.
  destruct (Z.eqb_spec (ocp_count e - 1) 0) as [Hlast | Hmore]; [discriminate |].
  intros [= _ <-].
  assert (Hmem : forall q, q ∈ TAILQ_INSERT_TAIL (TAILQ_REMOVE l p) p <-> q ∈ l).
  { intros q. unfold TAILQ_INSERT_TAIL.
    rewrite elem_of_app, elem_of_TAILQ_REMOVE, list_elem_of_singleton by assumption.
    destruct (decide (q = p)) as [-> | Hne]; intuition. }
  split; [constructor; simpl |].
  + unfold TAILQ_INSERT_TAIL. apply NoDup_app. repeat split.
    * by apply NoDup_TAILQ_REMOVE.
    * intros q. rewrite elem_of_TAILQ_REMOVE, list_elem_of_singleton by assumption. tauto.
    * apply NoDup_singleton.
  + intros d q Hq. rewrite Hmem. destruct (Hdir d q Hq) as (Hin & f & Hf & Hfd).
    split; [assumption |]. rewrite lookup_insert. case_decide as Hpq.
    * subst q. eexists. split; [reflexivity |]. simpl. congruence.
    * eauto.
  + intros q. rewrite Hmem. intros Hq. rewrite lookup_insert. case_decide as Hpq.
    * subst q. eexists. split; [reflexivity |]. simpl. split; [lia | assumption].
    * auto.
  + intros q f. rewrite Hmem, lookup_insert. case_decide as Hpq.
    * intros _. subst q. eauto.
    * apply Hlive.
  + simpl. unfold TAILQ_INSERT_TAIL. rewrite length_app. simpl. lia.
Qed.

Lemma objid_cache_loop_bound (fuel : nat) (m : kmem) (dip p : nat) :
  icache m !! dip = Some p -> objid_cache_loop fuel m dip = Ret (p, m).
Proof. intros Hp. destruct fuel; simpl; rewrite Hp; reflexivity. Qed.

(** A pass through the loop body leaves the directory bound, so the
    second test of the loop condition is false. *)
Lemma objid_cache_fill_binds (m m1 : kmem) (dip : nat) :
  icache m !! dip = None -> objid_cache_fill m dip = Ret m1 ->
  exists p, icache m1 !! dip = Some p.
Proof.
  intros Hnone. unfold objid_cache_fill.
  destruct (objid_cache_count (mount m) <? OBJID_CACHE_SIZE).
  - destruct (hammer_alloc_tid (mount m) OBJID_CACHE_BULK) as [[t hmp] | | |];
      simpl; try discriminate.
    rewrite Hnone. intros [= <-]. simpl. rewrite lookup_insert_eq. eauto.
  - destruct (TAILQ_FIRST (objid_cache_list (mount m))) as [p |]; [| discriminate].
    destruct (ocache m !! p) as [e |]; [| discriminate].
    intros [= <-]. simpl. rewrite lookup_insert_eq. eauto.
Qed.

Lemma objid_cache_loop_once (m : kmem) (dip : nat) :
  icache m !! dip = None ->
  objid_cache_loop 1 m dip =
  m1 ← objid_cache_fill m dip;
  match icache m1 !! dip with
  | Some p => Ret (p, m1)
  | None => Spin
  end.
Proof. intros Hnone. simpl. rewrite Hnone. reflexivity. Qed.


(** A returned call factors through the bound entry. *)
Lemma hammer_alloc_objid_ret (m m' : kmem) (dip : nat) (t : Z) :
  hammer_alloc_objid m dip = Ret (t, m') ->
  exists m1 p, icache m1 !! dip = Some p /\ objid_take m1 dip p = Ret (t, m') /\
    (icache m !! dip = Some p /\ m1 = m \/
     icache m !! dip = None /\ objid_cache_fill m dip = Ret m1).
Proof.
  unfold hammer_alloc_objid.
  destruct (icache m !! dip) as [p |] eqn:Hdip.
  - rewrite (objid_cache_loop_bound _ _ _ _ Hdip). simpl. intros Htake.
    exists m, p. auto.
  - rewrite objid_cache_loop_once by assumption.
    destruct (objid_cache_fill m dip) as [m1 | | |] eqn:Hfill; simpl; try discriminate.
    destruct (objid_cache_fill_binds _ _ _ Hdip Hfill) as [p Hp]. rewrite Hp. simpl.
    intros Htake. exists m1, p. auto.
Qed.

Lemma hammer_alloc_objid_wf (m m' : kmem) (dip : nat) (t : Z) :
  1 <= OBJID_CACHE_BULK ->
  objid_cache_wf m -> count_inv m ->
  hammer_alloc_objid m dip = Ret (t, m') ->
  objid_cache_wf m' /\ count_inv m'.
Proof.
  intros Hbulk Hwf Hcnt Hret.
  destruct (hammer_alloc_objid_ret _ _ _ _ Hret) as (m1 & p & Hp & Htake & [[_ ->] | [Hnone Hfill]]).
  - eapply objid_take_wf; eauto.
  - destruct (objid_cache_fill_wf m m1 dip) as (Hwf1 & Hcnt1 & _); trivial.
    eapply objid_take_wf; eauto.
Qed.

Lemma hammer_clear_objid_wf (m m' : kmem) (dip : nat) :
  objid_cache_wf m -> count_inv m ->
  hammer_clear_objid m dip = Ret m' ->
  objid_cache_wf m' /\ count_inv m'.
Proof.
  intros Hwf Hcnt. unfold hammer_clear_objid.
  destruct (icache m !! dip) as [p |] eqn:Hdip; [| intros [= <-]; auto].
  destruct Hwf as [Hnd Hdir Hent Hlive].
  destruct (Hdir dip p Hdip) as (Hp & e & He & Hed). rewrite He.
  destruct (Hent p Hp) as (e' & He' & Hc & Hback).
  assert (e' = e) by congruence. subst e'.
  pose proof (length_TAILQ_REMOVE _ _ Hp) as Hlen.
  unfold count_inv in *.
  destruct m as [[nt mid l c] oc ic b]; simpl in *.
  intros [= <-].
  assert (Hmem : forall q, q ∈ TAILQ_INSERT_HEAD (TAILQ_REMOVE l p) p <-> q ∈ l).
  { intros q. unfold TAILQ_INSERT_HEAD.
    rewrite elem_of_cons, elem_of_TAILQ_REMOVE by assumption.
    destruct (decide (q = p)) as [-> | Hne]; intuition. }
  split; [constructor; simpl |].
  - unfold TAILQ_INSERT_HEAD. apply NoDup_cons. split.
    + rewrite elem_of_TAILQ_REMOVE by assumption. tauto.
    + by apply NoDup_TAILQ_REMOVE.
  - intros d q. rewrite Hmem, lookup_delete. case_decide as Hd; [discriminate |].
    intros Hq. destruct (Hdir d q Hq) as (Hin & f & Hf & Hfd).
    split; [assumption |]. exists f. rewrite lookup_insert_ne; [auto |].
    intros ->. congruence.
  - intros q. rewrite Hmem. intros Hq. rewrite lookup_insert. case_decide as Hpq.
    + subst q. eexists. split; [reflexivity |]. simpl. split; [assumption | discriminate].
    + destruct (Hent q Hq) as (f & Hf & Hfc & Hfback).
      exists f. repeat split; trivial. intros d Hd. pose proof (Hfback d Hd).
      rewrite lookup_delete_ne; [assumption | congruence].
  - intros q f. rewrite Hmem, lookup_insert. case_decide as Hpq.
    + intros _. subst q. eauto.
    + apply Hlive.
  - simpl. lia.
Qed.



Ltac ids_unfold := unfold ocp_last, objid_step, HAMMER_MAX_MASTERS in *; simpl in *.

(** The id invariant looks at an entry only through its next id and
    its count, and at the list only through membership. *)
Lemma objid_ids_inv_same (m m1 : kmem) (issued : list Z) :
  next_tid (mount m1) = next_tid (mount m) ->
  master_id (mount m1) = master_id (mount m) ->
  (forall q, q ∈ objid_cache_list (mount m1) -> q ∈ objid_cache_list (mount m)) ->
  (forall q f, q ∈ objid_cache_list (mount m1) -> ocache m1 !! q = Some f ->
     exists f0, ocache m !! q = Some f0 /\ ocp_next_tid f0 = ocp_next_tid f /\
                ocp_count f0 = ocp_count f) ->
  objid_ids_inv m issued -> objid_ids_inv m1 issued.
Proof.
  intros Hnt Hmid Hsub Hsame [Hn Hroom Hms Hent Hap Hiss Hbel Hnd].
  assert (Hlast : forall f0 f, ocp_next_tid f0 = ocp_next_tid f ->
            ocp_count f0 = ocp_count f -> ocp_last (mount m1) f = ocp_last (mount m) f0).
  { intros f0 f Hx Hy. unfold ocp_last, objid_step. rewrite Hmid, Hx, Hy. reflexivity. }
  constructor; rewrite ?Hnt, ?Hmid; trivial.
  - destruct Hroom as [Hr | [Hi Hl]]; [by left | right]. split; [assumption |].
    destruct (objid_cache_list (mount m1)) as [| q l1]; [reflexivity |].
    specialize (Hsub q ltac:(left)). rewrite Hl in Hsub. inversion Hsub.
  - intros q f Hq Hf. destruct (Hsame q f Hq Hf) as (f0 & Hf0 & Hx & Hy).
    rewrite (Hlast f0 f Hx Hy), <- Hx. eauto.
  - intros p q e f Hp Hq Hpq He Hf.
    destruct (Hsame p e Hp He) as (e0 & He0 & Hex & Hey).
    destruct (Hsame q f Hq Hf) as (f0 & Hf0 & Hfx & Hfy).
    rewrite (Hlast e0 e Hex Hey), (Hlast f0 f Hfx Hfy), <- Hex, <- Hfx. eauto.
  - intros x q f Hx Hq Hf. destruct (Hsame q f Hq Hf) as (f0 & Hf0 & Hfx & Hfy).
    rewrite (Hlast f0 f Hfx Hfy), <- Hfx. eauto.
Qed.

Lemma objid_cache_fill_ids (m m1 : kmem) (dip : nat) (issued : list Z) :
  1 <= OBJID_CACHE_BULK < 2 ^ 20 ->
  objid_cache_wf m -> icache m !! dip = None -> objid_ids_inv m issued ->
  objid_cache_fill m dip = Ret m1 ->
  objid_ids_inv m1 issued.
Proof.
  intros Hbulk Hwf Hnone Hids. unfold objid_cache_fill.
  destruct (brk_not_listed m Hwf) as [Hfresh Hdead].
  destruct (Z.ltb_spec (objid_cache_count (mount m)) OBJID_CACHE_SIZE) as [Hroom | Hfull].
  - destruct (hammer_alloc_tid (mount m) OBJID_CACHE_BULK) as [[t hmp] | | |] eqn:Halloc;
      simpl; try discriminate.
    destruct Hids as [Hn Hr Hms Hent Hap Hiss Hbel Hnd].
    destruct (hammer_alloc_tid_reserve _ _ _ _ Hn Hms Hbulk Halloc)
      as (Hmount & Ht0 & Htl & Hn0 & Hnr & Hup).
    rewrite Hmount, Hnone. intros [= <-].
    assert (Hold : forall q f, q ∈ objid_cache_list (mount m) -> ocache m !! q = Some f ->
              0 <= ocp_next_tid f /\ ocp_last (mount m) f < t /\
              ocp_last (mount m) f <= next_tid hmp).
    { intros q f Hq Hf. destruct (Hent q f Hq Hf) as [Hf0 Hfl].
      destruct Hr as [Hr | [_ Hl]]; [| rewrite Hl in Hq; inversion Hq].
      specialize (Hup Hr). lia. }
    assert (Hiold : forall x, x ∈ issued -> x < t /\ x <= next_tid hmp).
    { intros x Hx. specialize (Hbel x Hx).
      destruct Hr as [Hr | [Hi _]]; [| rewrite Hi in Hx; inversion Hx].
      specialize (Hup Hr). lia. }
    destruct m as [[nt mid l c] oc ic b]. ids_unfold. clear Halloc Hmount.
    constructor; unfold TAILQ_INSERT_HEAD; ids_unfold; trivial.
    + lia.
    + by left.
    + intros q f Hq. rewrite lookup_insert. case_decide as Hbq.
      * intros [= <-]. simpl. lia.
      * apply elem_of_cons in Hq as [-> | Hq]; [congruence |].
        intros Hf. specialize (Hold q f Hq Hf). lia.
    + intros p q e f Hp Hq Hpq. rewrite !lookup_insert.
      apply elem_of_cons in Hp as [-> | Hp]; apply elem_of_cons in Hq as [-> | Hq];
        try congruence.
      * rewrite decide_True by reflexivity.
        rewrite decide_False by (intros ->; contradiction).
        intros [= <-] Hf. simpl. specialize (Hold q f Hq Hf). lia.
      * rewrite decide_False by (intros ->; contradiction).
        rewrite decide_True by reflexivity.
        intros He [= <-]. simpl. specialize (Hold p e Hp He). lia.
      * rewrite !decide_False by (intros ->; contradiction). by apply Hap.
    + intros x q f Hx Hq. rewrite lookup_insert.
      apply elem_of_cons in Hq as [-> | Hq].
      * rewrite decide_True by reflexivity. intros [= <-]. simpl.
        specialize (Hiold x Hx). lia.
      * rewrite decide_False by (intros ->; contradiction). by apply Hiss.
    + intros x Hx. specialize (Hiold x Hx). lia.
  - destruct (objid_cache_list (mount m)) as [| p l'] eqn:Hl; simpl; [discriminate |].
    destruct (ocache m !! p) as [e |] eqn:He; [| discriminate].
    intros [= <-]. apply (objid_ids_inv_same m); simpl; trivial.
    intros q f Hq. rewrite lookup_insert. case_decide as Hpq; [| eauto].
    subst q. intros [= <-]. simpl. eauto.
Qed.

Lemma objid_take_ids (m m2 : kmem) (dip p : nat) (t : Z) (issued : list Z) :
  objid_cache_wf m -> icache m !! dip = Some p -> objid_ids_inv m issued ->
  objid_take m dip p = Ret (t, m2) ->
  objid_ids_inv m2 (t :: issued).
Proof.
  intros Hwf Hdip Hids. unfold objid_take, kfree, dfly_kfree.
  destruct Hwf as [Hlnd Hdir Hwent Hlive].
  destruct (Hdir dip p Hdip) as (Hp & e & He & Hed). rewrite He.
  destruct (Hwent p Hp) as (e' & He' & Hc & Hback).
  assert (e' = e) by congruence. subst e'.
  destruct Hids as [Hn Hr Hms Hent Hap Hiss Hbel Hnd].
  assert (Hroom : next_tid (mount m) + HAMMER_MAX_MASTERS < 2 ^ 64).
  { destruct Hr as [Hr | [_ Hl]]; [assumption |]. rewrite Hl in Hp. inversion Hp. }
  destruct (Hent p e Hp He) as [He0 Hel].
  destruct m as [[nt mid l c] oc ic b]; ids_unfold.
  set (step := if mid <? 0 then 1 else 16) in *.
  assert (Hstep : 1 <= step) by (subst step; destruct (mid <? 0); lia).
  assert (Hfresh : ocp_next_tid e ∉ issued).
  { intros Hin. destruct (Hiss _ p e Hin Hp He); nia. }
  destruct (Z.eqb_spec (ocp_count e - 1) 0) as [Hlast | Hmore]; [discriminate |].
  intros [= <- <-].
  assert (Hmem : forall q, q ∈ TAILQ_INSERT_TAIL (TAILQ_REMOVE l p) p <-> q ∈ l).
  { intros q. unfold TAILQ_INSERT_TAIL.
    rewrite elem_of_app, elem_of_TAILQ_REMOVE, list_elem_of_singleton by assumption.
    destruct (decide (q = p)) as [-> | Hne]; intuition. }
  assert (Hu : u64 (ocp_next_tid e + step) = ocp_next_tid e + step).
  { apply u64_small. nia. }
  rewrite Hu.
  constructor; ids_unfold; fold step; trivial.
  + by left.
  + intros q f. rewrite Hmem, lookup_insert. intros Hq. case_decide as Hpq.
    * intros [= <-]. simpl. nia.
    * intros Hf. by apply (Hent q).
  + intros q1 q2 f1 f2. rewrite !Hmem, !lookup_insert. intros Hq1 Hq2 Hne.
    case_decide as H1; case_decide as H2; try congruence.
    * subst q1. intros [= <-] Hf2. simpl.
      destruct (Hap p q2 e f2 Hp Hq2 Hne He Hf2); nia.
    * subst q2. intros Hf1 [= <-]. simpl.
      destruct (Hap q1 p f1 e Hq1 Hp Hne Hf1 He); nia.
    * by apply (Hap q1 q2).
  + intros x q f Hx. rewrite Hmem, lookup_insert. intros Hq.
    apply elem_of_cons in Hx as [-> | Hx]; case_decide as Hpq.
    * intros [= <-]. simpl. nia.
    * intros Hf. destruct (Hap p q e f Hp Hq Hpq He Hf); nia.
    * subst q. intros [= <-]. simpl. destruct (Hiss x p e Hx Hp He); nia.
    * by apply (Hiss x q).
  + intros x Hx. apply elem_of_cons in Hx as [-> | Hx]; [| by apply Hbel]. nia.
  + apply NoDup_cons. auto.
Qed.


Lemma hammer_clear_objid_ids (m m' : kmem) (dip : nat) (issued : list Z) :
  objid_cache_wf m -> objid_ids_inv m issued ->
  hammer_clear_objid m dip = Ret m' ->
  objid_ids_inv m' issued.
Proof.
  intros Hwf Hids. unfold hammer_clear_objid.
  destruct (icache m !! dip) as [p |] eqn:Hdip; [| intros [= <-]; assumption].
  destruct (wf_dir m Hwf dip p Hdip) as (Hp & e & He & _). rewrite He.
  intros [= <-]. apply (objid_ids_inv_same m); simpl; trivial.
  - intros q. unfold TAILQ_INSERT_HEAD.
    rewrite elem_of_cons, elem_of_TAILQ_REMOVE by apply (wf_nodup m Hwf).
    intros [-> | [Hq _]]; assumption.
  - intros q f _. rewrite lookup_insert. case_decide as Hpq; [| eauto].
    subst q. intros [= <-]. simpl. eauto.
Qed.

(** One TID drawn as at line 109. *)
Lemma alloc_tid_op_inv (m : kmem) (hmp : hammer_mount) (t : Z) (issued : list Z) :
  objid_cache_wf m -> count_inv m -> objid_ids_inv m issued ->
  hammer_alloc_tid (mount m) 1 = Ret (t, hmp) ->
  objid_cache_wf (mkKmem hmp (ocache m) (icache m) (brk m)) /\
  count_inv (mkKmem hmp (ocache m) (icache m) (brk m)) /\
  objid_ids_inv (mkKmem hmp (ocache m) (icache m) (brk m)) issued.
Proof.
  intros [Hlnd Hdir Hwent Hlive] Hcnt [Hn Hr Hms Hent Hap Hiss Hbel Hnd] Halloc.
  destruct (hammer_alloc_tid_reserve (mount m) hmp 1 t Hn Hms ltac:(lia) Halloc)
    as (Hmount & Ht0 & Htl & Hn0 & Hnr & Hup).
  rewrite Hmount. unfold count_inv in *.
  destruct m as [[nt mid l c] oc ic b]. simpl in *.
  split; [constructor; assumption | split; [assumption |]].
  constructor; ids_unfold; trivial.
  - lia.
  - by left.
  - intros q f Hq Hf. destruct (Hent q f Hq Hf).
    destruct Hr as [Hr | [_ Hl]]; [| rewrite Hl in Hq; inversion Hq].
    specialize (Hup Hr). lia.
  - intros x Hx. specialize (Hbel x Hx).
    destruct Hr as [Hr | [Hi _]]; [| rewrite Hi in Hx; inversion Hx].
    specialize (Hup Hr). lia.
Qed.

Lemma hammer_alloc_objid_ids (m m' : kmem) (dip : nat) (t : Z) (issued : list Z) :
  1 <= OBJID_CACHE_BULK < 2 ^ 20 ->
  objid_cache_wf m -> count_inv m -> objid_ids_inv m issued ->
  hammer_alloc_objid m dip = Ret (t, m') ->
  objid_ids_inv m' (t :: issued).
Proof.
  intros Hbulk Hwf Hcnt Hids Hret.
  destruct (hammer_alloc_objid_ret _ _ _ _ Hret)
    as (m1 & p & Hp & Htake & [[_ ->] | [Hnone Hfill]]).
  - by apply (objid_take_ids m m' dip p t issued).
  - destruct (objid_cache_fill_wf m m1 dip) as (Hwf1 & _ & _); trivial; [lia |].
    apply (objid_take_ids m1 m' dip p t issued Hwf1 Hp); [| assumption].
    by apply (objid_cache_fill_ids m m1 dip issued).
Qed.


(** On a well-formed cache [hammer_clear_objid] returns. *)
Lemma hammer_clear_objid_returns (m : kmem) (dip : nat) :
  objid_cache_wf m -> exists m', hammer_clear_objid m dip = Ret m'.
Proof.
  intros Hwf. unfold hammer_clear_objid.
  destruct (icache m !! dip) as [p |] eqn:Hdip; [| eauto].
  destruct (wf_dir m Hwf dip p Hdip) as (_ & e & -> & _). eauto.
Qed.

Lemma fresh_mount_inv (next master : Z) :
  0 <= next < 2 ^ 64 -> master < HAMMER_MAX_MASTERS ->
  objid_cache_wf (fresh_mount next master) /\ count_inv (fresh_mount next master) /\
  objid_ids_inv (fresh_mount next master) [].
Proof.
  intros Hn Hm. split; [| split].
  - constructor; simpl.
    + constructor.
    + intros d q Hq. rewrite lookup_empty in Hq. discriminate.
    + intros q Hq. inversion Hq.
    + intros q e He. rewrite lookup_empty in He. discriminate.
  - reflexivity.
  - constructor; simpl; trivial.
    + by right.
    + intros q e Hq. inversion Hq.
    + intros p q e f Hp. inversion Hp.
    + intros x q e Hx. inversion Hx.
    + intros x Hx. inversion Hx.
    + constructor.
Qed.


End CacheFacts.

Lemma TAILQ_REMOVE_app_last (l : list nat) (p : nat) :
  p ∉ l -> TAILQ_REMOVE (l ++ [p]) p = l.
Proof.
  induction l as [| q l IH]; simpl; intros Hnot.
  - destruct (decide (p = p)); congruence.
  - apply not_elem_of_cons in Hnot as [Hne Hnot].
    destruct (decide (q = p)); [congruence |]. f_equal. auto.
Qed.

Lemma objid_range_length (n : nat) : forall t step, length (objid_range t step n) = n.
Proof. induction n as [| n IH]; intros t step; simpl; [| rewrite IH]; reflexivity. Qed.

Lemma objid_range_lookup (n : nat) : forall (t step : Z) (i : nat),
  (i < n)%nat -> objid_range t step n !! i = Some (t + step * Z.of_nat i).
Proof.
  induction n as [| n IH]; intros t step i Hi; [lia |].
  destruct i as [| i]; simpl.
  - f_equal. lia.
  - rewrite IH by lia. f_equal. lia.
Qed.

Lemma result_bind_ret {A B : Type} (a : A) (k : A -> result B) : Ret a ≫= k = k a.
Proof. reflexivity. Qed.

Section CacheSteps.
Context `{hammer_h}.

Lemma objid_draw_S (n : nat) (m : kmem) (dip : nat) :
  objid_draw (S n) m dip =
  hammer_alloc_objid m dip ≫= fun '(t, m1) =>
  objid_draw n m1 dip ≫= fun '(ids, m2) => Ret (t :: ids, m2).
Proof. reflexivity. Qed.

Lemma hammer_alloc_objid_bound (m : kmem) (dip p : nat) :
  icache m !! dip = Some p -> hammer_alloc_objid m dip = objid_take m dip p.
Proof.
  intros Hp. unfold hammer_alloc_objid.
  rewrite (objid_cache_loop_bound _ _ _ _ Hp). reflexivity.
Qed.

Lemma hammer_alloc_objid_unbound (m m1 : kmem) (dip p : nat) :
  icache m !! dip = None -> objid_cache_fill m dip = Ret m1 ->
  icache m1 !! dip = Some p ->
  hammer_alloc_objid m dip = objid_take m1 dip p.
Proof.
  intros Hnone Hfill Hp. unfold hammer_alloc_objid.
  rewrite objid_cache_loop_once, Hfill by assumption. simpl. rewrite Hp. reflexivity.
Qed.

Lemma objid_cache_fill_create (m : kmem) (dip : nat) (t : Z) (hmp : hammer_mount) :
  icache m !! dip = None ->
  objid_cache_count (mount m) < OBJID_CACHE_SIZE ->
  hammer_alloc_tid (mount m) OBJID_CACHE_BULK = Ret (t, hmp) ->
  objid_cache_fill m dip = Ret (after_create m dip t (next_tid hmp)).
Proof.
  intros Hnone Hroom Halloc. unfold objid_cache_fill.
  destruct (Z.ltb_spec (objid_cache_count (mount m)) OBJID_CACHE_SIZE); [| lia].
  rewrite Halloc. simpl. rewrite Hnone.
  rewrite (hammer_alloc_tid_mount _ _ _ _ Halloc). reflexivity.
Qed.

Lemma objid_cache_fill_evict (m : kmem) (dip p : nat) (e : hammer_objid_cache) :
  icache m !! dip = None ->
  OBJID_CACHE_SIZE <= objid_cache_count (mount m) ->
  TAILQ_FIRST (objid_cache_list (mount m)) = Some p ->
  ocache m !! p = Some e ->
  objid_cache_fill m dip = Ret (after_evict m dip p e).
Proof.
  intros Hnone Hfull Hfirst He. unfold objid_cache_fill.
  destruct (Z.ltb_spec (objid_cache_count (mount m)) OBJID_CACHE_SIZE); [lia |].
  rewrite Hfirst, He. reflexivity.
Qed.

(** The draw of an entry's last id reaches [kfree] (line 214). *)
Lemma objid_take_last (m : kmem) (dip p : nat) (e : hammer_objid_cache) :
  ocache m !! p = Some e -> ocp_count e = 1 -> objid_take m dip p = Panic.
Proof. intros He Hc. rewrite objid_take_unfold, He, Hc. reflexivity. Qed.

Lemma objid_take_more (m : kmem) (dip p : nat) (e : hammer_objid_cache) :
  ocache m !! p = Some e -> ocp_count e <> 1 ->
  objid_take m dip p =
  Ret (ocp_next_tid e,
       mkKmem (set_objid_cache_list (mount m)
                 (TAILQ_INSERT_TAIL (TAILQ_REMOVE (objid_cache_list (mount m)) p) p))
              (<[p := mkOcp (ocp_dip e)
                            (u64 (ocp_next_tid e + objid_step (mount m)))
                            (ocp_count e - 1)]> (ocache m))
              (icache m) (brk m)).
Proof.
  intros He Hc. rewrite objid_take_unfold, He.
  destruct (Z.eqb_spec (ocp_count e - 1) 0); [lia | reflexivity].
Qed.

(** Draws that leave the entry alive: after [k] ids, with more than
    [k] left, the directory is still bound to the same entry. *)
Lemma objid_draw_some (k : nat) : forall (m : kmem) (dip p : nat) (e : hammer_objid_cache),
  icache m !! dip = Some p -> ocache m !! p = Some e ->
  Z.of_nat k < ocp_count e ->
  0 <= ocp_next_tid e -> ocp_last (mount m) e < 2 ^ 64 ->
  exists mk,
    objid_draw k m dip
      = Ret (objid_range (ocp_next_tid e) (objid_step (mount m)) k, mk) /\
    icache mk !! dip = Some p /\
    ocache mk !! p = Some (mkOcp (ocp_dip e)
                                 (ocp_next_tid e + objid_step (mount m) * Z.of_nat k)
                                 (ocp_count e - Z.of_nat k)).
Proof.
  induction k as [| k IH]; intros m dip p e Hp He Hk H0 Hlast.
  - exists m. simpl. repeat split; trivial. rewrite He. destruct e; simpl.
    do 2 f_equal; lia.
  - rewrite objid_draw_S, (hammer_alloc_objid_bound _ _ _ Hp).
    rewrite (objid_take_more _ _ _ _ He) by lia. rewrite result_bind_ret.
    assert (Hstep : 1 <= objid_step (mount m)).
    { unfold objid_step, HAMMER_MAX_MASTERS. destruct (master_id (mount m) <? 0); lia. }
    assert (Hu : u64 (ocp_next_tid e + objid_step (mount m))
                 = ocp_next_tid e + objid_step (mount m)).
    { apply u64_small. unfold ocp_last in Hlast. nia. }
    rewrite Hu.
    match goal with |- context [objid_draw k ?m1 dip] => set (M1 := m1) end.
    destruct (IH M1 dip p
               (mkOcp (ocp_dip e) (ocp_next_tid e + objid_step (mount m)) (ocp_count e - 1)))
      as (mk & Hdraw & Hbound & Hent); subst M1; simpl; trivial.
    + apply lookup_insert_eq.
    + lia.
    + lia.
    + unfold ocp_last, objid_step in *. simpl in *. lia.
    + exists mk. unfold objid_step in *. simpl in *. rewrite Hdraw, result_bind_ret.
      repeat split; trivial. rewrite Hent. do 2 f_equal; lia.
Qed.

(** Asking for every id an entry holds: the request for the last one
    does not return. *)
Lemma objid_draw_all (n : nat) : forall (m : kmem) (dip p : nat) (e : hammer_objid_cache),
  icache m !! dip = Some p -> ocache m !! p = Some e ->
  ocp_count e = Z.of_nat (S n) ->
  0 <= ocp_next_tid e -> ocp_last (mount m) e < 2 ^ 64 ->
  objid_draw (S n) m dip = Panic.
Proof.
  induction n as [| n IH]; intros m dip p e Hp He Hc H0 Hlast.
  - rewrite objid_draw_S, (hammer_alloc_objid_bound _ _ _ Hp).
    rewrite (objid_take_last _ _ _ _ He) by lia. reflexivity.
  - rewrite objid_draw_S, (hammer_alloc_objid_bound _ _ _ Hp).
    rewrite (objid_take_more _ _ _ _ He) by lia. rewrite result_bind_ret.
    assert (Hstep : 1 <= objid_step (mount m)).
    { unfold objid_step, HAMMER_MAX_MASTERS. destruct (master_id (mount m) <? 0); lia. }
    assert (Hu : u64 (ocp_next_tid e + objid_step (mount m))
                 = ocp_next_tid e + objid_step (mount m)).
    { apply u64_small. unfold ocp_last in Hlast. nia. }
    rewrite Hu.
    erewrite IH; [reflexivity | simpl; eassumption | simpl; apply lookup_insert_eq | ..].
    + simpl. lia.
    + simpl. lia.
    + unfold ocp_last, objid_step in *. simpl in *. lia.
Qed.

(** [hammer_destroy_objid_cache] on an empty list: the loop test fails
    at once. *)
Lemma objid_destroy_loop_empty (fuel : nat) (m : kmem) :
  objid_cache_list (mount m) = [] -> objid_destroy_loop fuel m = Ret m.
Proof. intros Hl. destruct fuel; simpl; rewrite Hl; reflexivity. Qed.

(** On a list that is not empty the first pass reaches [kfree]
    (line 243). *)
Lemma objid_destroy_loop_panic (fuel : nat) (m : kmem) (p : nat) (l' : list nat) :
  objid_cache_wf m -> objid_cache_list (mount m) = p :: l' ->
  objid_destroy_loop (S fuel) m = Panic.
Proof.
  intros Hwf Hl. simpl. rewrite Hl. simpl.
  destruct (wf_entry m Hwf p) as (e & -> & _); [rewrite Hl; left |].
  reflexivity.
Qed.

Lemma objid_take_count (m m' : kmem) (dip p : nat) (t : Z) :
  objid_take m dip p = Ret (t, m') ->
  objid_cache_count (mount m') <= objid_cache_count (mount m).
Proof.
  rewrite objid_take_unfold. destruct (ocache m !! p) as [e |]; [| discriminate].
  destruct (ocp_count e - 1 =? 0); [discriminate |]. intros [= _ <-]. simpl. lia.
Qed.

Lemma objid_cache_fill_bounded (m m1 : kmem) (dip : nat) :
  pool_bounded m -> objid_cache_fill m dip = Ret m1 -> pool_bounded m1.
Proof.
  unfold pool_bounded, objid_cache_fill. intros Hb.
  destruct (Z.ltb_spec (objid_cache_count (mount m)) OBJID_CACHE_SIZE) as [Hroom | Hfull].
  - destruct (hammer_alloc_tid (mount m) OBJID_CACHE_BULK) as [[t hmp] | | |] eqn:Halloc;
      simpl; try discriminate.
    rewrite (hammer_alloc_tid_mount _ _ _ _ Halloc).
    destruct (icache m !! dip); intros [= <-]; simpl; lia.
  - destruct (TAILQ_FIRST _) as [p |]; [| discriminate].
    destruct (ocache m !! p); [| discriminate]. intros [= <-]. assumption.
Qed.

Lemma hammer_alloc_objid_bounded (m m' : kmem) (dip : nat) (t : Z) :
  pool_bounded m -> hammer_alloc_objid m dip = Ret (t, m') -> pool_bounded m'.
Proof.
  intros Hb Hret.
  destruct (hammer_alloc_objid_ret _ _ _ _ Hret)
    as (m1 & p & Hp & Htake & [[_ ->] | [Hnone Hfill]]);
    apply objid_take_count in Htake; unfold pool_bounded in *.
  - lia.
  - pose proof (objid_cache_fill_bounded m m1 dip Hb Hfill). unfold pool_bounded in *. lia.
Qed.

Lemma hammer_clear_objid_bounded (m m' : kmem) (dip : nat) :
  pool_bounded m -> hammer_clear_objid m dip = Ret m' -> pool_bounded m'.
Proof.
  unfold pool_bounded, hammer_clear_objid. intros Hb.
  destruct (icache m !! dip) as [p |]; [| intros [= <-]; assumption].
  destruct (ocache m !! p); [| discriminate]. intros [= <-]. assumption.
Qed.

(** The invariants hold in every state a serial run reaches; the ids
    accounted for there include those issued before and during the
    run. *)
Lemma objid_run_reaches (ops : list objid_op) : forall (m0 m : kmem) (issued : list Z),
  1 <= OBJID_CACHE_BULK < 2 ^ 20 ->
  objid_cache_wf m0 -> count_inv m0 -> pool_bounded m0 -> objid_ids_inv m0 issued ->
  snd (objid_run m0 ops) = Ret m ->
  objid_cache_wf m /\ count_inv m /\ pool_bounded m /\
  exists issued', objid_ids_inv m issued' /\
                  (forall x, x ∈ issued -> x ∈ issued') /\
                  (forall x, x ∈ fst (objid_run m0 ops) -> x ∈ issued').
Proof.
  induction ops as [| op ops IH]; intros m0 m issued Hbulk Hwf Hcnt Hb Hids.
  - simpl. intros [= <-]. repeat apply conj; trivial. exists issued. repeat apply conj; trivial.
    intros x Hx. inversion Hx.
  - destruct op as [dip | dip |]; simpl.
    + destruct (hammer_alloc_objid m0 dip) as [[t m1] | | |] eqn:Hcall; try discriminate.
      destruct (hammer_alloc_objid_wf m0 m1 dip t) as [Hwf1 Hcnt1]; trivial; [lia |].
      pose proof (hammer_alloc_objid_ids m0 m1 dip t issued Hbulk Hwf Hcnt Hids Hcall) as Hids1.
      pose proof (hammer_alloc_objid_bounded m0 m1 dip t Hb Hcall) as Hb1.
      specialize (IH m1 m (t :: issued) Hbulk Hwf1 Hcnt1 Hb1 Hids1).
      destruct (objid_run m1 ops) as [ids r]. simpl in *. intros Hr.
      destruct (IH Hr) as (Hwf' & Hcnt' & Hb' & issued' & Hids' & Hold & Hsub).
      repeat apply conj; trivial. exists issued'. repeat apply conj; trivial.
      * intros x Hx. apply Hold. by right.
      * intros x Hx. apply elem_of_cons in Hx as [-> | Hx]; [| auto].
        apply Hold. left.
    + destruct (hammer_clear_objid m0 dip) as [m1 | | |] eqn:Hcall; try discriminate.
      destruct (hammer_clear_objid_wf m0 m1 dip) as [Hwf1 Hcnt1]; trivial.
      apply IH; trivial.
      * by apply (hammer_clear_objid_bounded m0 m1 dip).
      * by apply (hammer_clear_objid_ids m0 m1 dip issued).
    + destruct (hammer_alloc_tid (mount m0) 1) as [[t hmp] | | |] eqn:Hcall;
        try discriminate.
      destruct (alloc_tid_op_inv m0 hmp t issued) as (Hwf1 & Hcnt1 & Hids1); trivial.
      apply IH; trivial.
      unfold pool_bounded in *. simpl.
      rewrite (hammer_alloc_tid_mount _ _ _ _ Hcall). assumption.
Qed.

(** The same from a fresh mount. *)
Lemma fresh_run_reaches (next master : Z) (ops : list objid_op) (m : kmem) :
  0 <= OBJID_CACHE_SIZE -> 1 <= OBJID_CACHE_BULK < 2 ^ 20 ->
  0 <= next < 2 ^ 64 -> master < HAMMER_MAX_MASTERS ->
  snd (objid_run (fresh_mount next master) ops) = Ret m ->
  objid_cache_wf m /\ count_inv m /\ pool_bounded m /\
  exists issued', objid_ids_inv m issued' /\
                  forall x, x ∈ fst (objid_run (fresh_mount next master) ops) -> x ∈ issued'.
Proof.
  intros Hsize Hbulk Hn Hm Hrun.
  destruct (fresh_mount_inv next master Hn Hm) as (Hwf0 & Hcnt0 & Hids0).
  destruct (objid_run_reaches ops (fresh_mount next master) m [] Hbulk Hwf0 Hcnt0)
    as (Hwf & Hcnt & Hb & issued' & Hids & _ & Hsub); trivial.
  repeat apply conj; trivial. exists issued'. auto.
Qed.



(** C9.  What the code does when a request takes the last id of the
    entry it draws from.  Lines 210-214 unlink the entry, clear the
    directory's pointer, decrement [objid_cache_count] and call
    [kfree], which is [dfly_kfree] and panics: the request returns no
    id, whichever way it came by the entry:
    - the directory's own entry, holding one id;
    - the head entry taken under capacity pressure, holding one id;
    - a new entry when [OBJID_CACHE_BULK] is 1.
    Of the [OBJID_CACHE_BULK] ids of a new entry the first
    [OBJID_CACHE_BULK - 1] requests return [t], [t + step], ..., in
    single-master mode consecutive values, with the directory bound to
    the entry throughout; the request for the last id does not
    return. *)
Theorem objid_entry_exhaustion (m : kmem) (dip : nat) :
  1 <= OBJID_CACHE_BULK < 2 ^ 20 ->
  objid_cache_wf m -> count_inv m ->
  0 <= next_tid (mount m) < 2 ^ 64 -> master_id (mount m) < HAMMER_MAX_MASTERS ->
  (forall p e, icache m !! dip = Some p -> ocache m !! p = Some e -> ocp_count e = 1 ->
     hammer_alloc_objid m dip = Panic) /\
  (forall p e, icache m !! dip = None ->
     OBJID_CACHE_SIZE <= objid_cache_count (mount m) ->
     TAILQ_FIRST (objid_cache_list (mount m)) = Some p ->
     ocache m !! p = Some e -> ocp_count e = 1 ->
     hammer_alloc_objid m dip = Panic) /\
  (forall t hmp, icache m !! dip = None ->
     objid_cache_count (mount m) < OBJID_CACHE_SIZE ->
     hammer_alloc_tid (mount m) OBJID_CACHE_BULK = Ret (t, hmp) ->
     (forall k, (0 < k < Z.to_nat OBJID_CACHE_BULK)%nat ->
        exists mk, objid_draw k m dip
                     = Ret (objid_range t (objid_step (mount m)) k, mk) /\
                   icache mk !! dip = Some (brk m)) /\
     objid_draw (Z.to_nat OBJID_CACHE_BULK) m dip = Panic /\
     (master_id (mount m) < 0 ->
      forall i, (i < Z.to_nat OBJID_CACHE_BULK)%nat ->
        objid_range t (objid_step (mount m)) (Z.to_nat OBJID_CACHE_BULK) !! i
          = Some (t + Z.of_nat i))).
Proof.
  intros Hbulk Hwf Hcnt Hnt Hmid. repeat apply conj.
  - intros p e Hp He Hone.
    rewrite (hammer_alloc_objid_bound _ _ _ Hp).
    apply (objid_take_last _ _ _ _ He Hone).
  - intros p e Hnone Hfull Hfirst He Hone.
    pose proof (objid_cache_fill_evict m dip p e Hnone Hfull Hfirst He) as Hfill.
    assert (Hbd : icache (after_evict m dip p e) !! dip = Some p) by apply lookup_insert_eq.
    rewrite (hammer_alloc_objid_unbound m _ dip p Hnone Hfill Hbd).
    apply (objid_take_last _ dip p (mkOcp (Some dip) (ocp_next_tid e) (ocp_count e)));
      [apply lookup_insert_eq | assumption].
  - intros t hmp Hnone Hroom Halloc.
    destruct (hammer_alloc_tid_reserve _ _ _ _ Hnt Hmid Hbulk Halloc)
      as (Hmount & Ht0 & Htl & Hn0 & Hnr & _).
    pose proof (objid_cache_fill_create m dip t hmp Hnone Hroom Halloc) as Hfill.
    set (M := after_create m dip t (next_tid hmp)) in *.
    assert (Hbd : icache M !! dip = Some (brk m)) by apply lookup_insert_eq.
    assert (HE : ocache M !! brk m = Some (mkOcp (Some dip) t OBJID_CACHE_BULK))
      by apply lookup_insert_eq.
    assert (Hsame : forall k, objid_draw (S k) m dip = objid_draw (S k) M dip).
    { intros k. rewrite !objid_draw_S.
      rewrite (hammer_alloc_objid_unbound m M dip (brk m) Hnone Hfill Hbd).
      rewrite (hammer_alloc_objid_bound M dip (brk m) Hbd). reflexivity. }
    assert (Hlast : ocp_last (mount M) (mkOcp (Some dip) t OBJID_CACHE_BULK) < 2 ^ 64).
    { unfold ocp_last, objid_step, HAMMER_MAX_MASTERS in *. simpl in *. lia. }
    assert (Hst : objid_step (mount M) = objid_step (mount m)) by reflexivity.
    repeat apply conj.
    + intros k Hk. destruct k as [| k]; [lia |]. rewrite Hsame.
      destruct (objid_draw_some (S k) M dip (brk m) _ Hbd HE) as (mk & Hdraw & Hbk & _);
        simpl; trivial; [lia |].
      exists mk. rewrite <- Hst. auto.
    + destruct (Z.to_nat OBJID_CACHE_BULK) as [| n] eqn:Hn; [lia |].
      rewrite Hsame.
      apply (objid_draw_all n M dip (brk m) _ Hbd HE); simpl; trivial. lia.
    + intros Hsingle i Hi. rewrite objid_range_lookup by assumption.
      unfold objid_step. destruct (Z.ltb_spec (master_id (mount m)) 0); [| lia].
      f_equal. lia.
Qed.

(** C10.  What the code does to [objid_cache_count].  A
    [hammer_alloc_objid] or [hammer_clear_objid] that returns leaves
    it equal to the length of the list.  The loop of
    [hammer_destroy_objid_cache] has no statement that touches it; on
    an empty list the call returns at once, and on a list that is not
    empty its first pass unlinks the head entry, clears the owner's
    pointer and calls [kfree], which is [dfly_kfree] and panics: the
    call does not return, and no state with an empty list and the old
    count is reached. *)
Theorem objid_cache_count_tracks_list (m : kmem) (dip : nat) :
  1 <= OBJID_CACHE_BULK ->
  objid_cache_wf m -> count_inv m ->
  (forall t m', hammer_alloc_objid m dip = Ret (t, m') -> count_inv m') /\
  (exists m', hammer_clear_objid m dip = Ret m' /\ count_inv m') /\
  (objid_cache_list (mount m) = [] -> hammer_destroy_objid_cache m = Ret m) /\
  (objid_cache_list (mount m) <> [] -> hammer_destroy_objid_cache m = Panic).
Proof.
  intros Hbulk Hwf Hcnt. repeat apply conj.
  - intros t m' Hret. by destruct (hammer_alloc_objid_wf m m' dip t).
  - destruct (hammer_clear_objid_returns m dip Hwf) as [m' Hret].
    exists m'. split; [assumption |]. by destruct (hammer_clear_objid_wf m m' dip).
  - intros Hl. by apply objid_destroy_loop_empty.
  - intros Hne. unfold hammer_destroy_objid_cache.
    destruct (objid_cache_list (mount m)) as [| p l'] eqn:Hl; [congruence |].
    apply (objid_destroy_loop_panic _ m p l' Hwf Hl).
Qed.


(** C5.  The list is kept in order of use: its head is the
    least-recently-used end, where eviction takes its entry, and its
    tail the most-recently-used end.
    - A request that creates an entry leaves it at the tail, the
      most-recently-used end.  (Line 186 links it with
      TAILQ_INSERT_HEAD, lines 201 and 216 of the same call move it.)
    - Under capacity pressure the entry taken is the one at the head
      (TAILQ_FIRST), the end opposite to where new and used entries
      go, and the call leaves it at the tail.
    - A draw from a directory's own entry moves that entry to the
      tail.
    - [hammer_clear_objid] unbinds the entry, keeps its ids and moves
      it to the head, the end eviction takes from: the next request
      under capacity pressure takes this entry.
    The requests above are those that leave ids in the entry; the
    others do not return, see [objid_take_last]. *)
Theorem objid_cache_list_order (m : kmem) (dip : nat) :
  objid_cache_wf m -> count_inv m ->
  (forall t hmp, icache m !! dip = None ->
     objid_cache_count (mount m) < OBJID_CACHE_SIZE ->
     hammer_alloc_tid (mount m) OBJID_CACHE_BULK = Ret (t, hmp) ->
     OBJID_CACHE_BULK <> 1 ->
     exists m',
       hammer_alloc_objid m dip = Ret (t, m') /\
       icache m' !! dip = Some (brk m) /\
       objid_cache_list (mount m') = objid_cache_list (mount m) ++ [brk m] /\
       last (objid_cache_list (mount m')) = Some (brk m)) /\
  (forall p l', icache m !! dip = None ->
     OBJID_CACHE_SIZE <= objid_cache_count (mount m) ->
     objid_cache_list (mount m) = p :: l' ->
     exists e m1,
       ocache m !! p = Some e /\
       objid_cache_fill m dip = Ret m1 /\
       icache m1 !! dip = Some p /\
       (ocp_count e <> 1 ->
        exists m',
          hammer_alloc_objid m dip = Ret (ocp_next_tid e, m') /\
          icache m' !! dip = Some p /\
          objid_cache_list (mount m') = l' ++ [p] /\
          last (objid_cache_list (mount m')) = Some p)) /\
  (forall p e, icache m !! dip = Some p -> ocache m !! p = Some e ->
     ocp_count e <> 1 ->
     exists m',
       hammer_alloc_objid m dip = Ret (ocp_next_tid e, m') /\
       objid_cache_list (mount m') = TAILQ_REMOVE (objid_cache_list (mount m)) p ++ [p] /\
       last (objid_cache_list (mount m')) = Some p) /\
  (forall p, icache m !! dip = Some p ->
     exists e m',
       ocache m !! p = Some e /\
       hammer_clear_objid m dip = Ret m' /\
       objid_cache_list (mount m') = p :: TAILQ_REMOVE (objid_cache_list (mount m)) p /\
       TAILQ_FIRST (objid_cache_list (mount m')) = Some p /\
       ocache m' !! p = Some (mkOcp None (ocp_next_tid e) (ocp_count e)) /\
       icache m' !! dip = None /\
       objid_cache_count (mount m') = objid_cache_count (mount m) /\
       forall dip2, icache m' !! dip2 = None ->
         OBJID_CACHE_SIZE <= objid_cache_count (mount m') ->
         exists m1, objid_cache_fill m' dip2 = Ret m1 /\ icache m1 !! dip2 = Some p).
Proof.
  intros Hwf Hcnt. repeat apply conj.
  - intros t hmp Hnone Hroom Halloc Hbn.
    pose proof (objid_cache_fill_create m dip t hmp Hnone Hroom Halloc) as Hfill.
    assert (Hbd : icache (after_create m dip t (next_tid hmp)) !! dip = Some (brk m))
      by apply lookup_insert_eq.
    eexists.
    rewrite (hammer_alloc_objid_unbound m _ dip (brk m) Hnone Hfill Hbd).
    rewrite (objid_take_more _ dip (brk m) (mkOcp (Some dip) t OBJID_CACHE_BULK));
      [| apply lookup_insert_eq | assumption].
    split; [reflexivity |]. split; [exact Hbd |].
    unfold after_create, TAILQ_INSERT_HEAD, TAILQ_INSERT_TAIL, set_objid_cache_list.
    cbn [mount objid_cache_list]. rewrite TAILQ_REMOVE_head.
    split; [reflexivity | apply last_snoc].
  - intros p l' Hnone Hfull Hl.
    destruct (wf_entry m Hwf p) as (e & He & _); [rewrite Hl; left |].
    assert (Hfirst : TAILQ_FIRST (objid_cache_list (mount m)) = Some p) by (by rewrite Hl).
    pose proof (objid_cache_fill_evict m dip p e Hnone Hfull Hfirst He) as Hfill.
    assert (Hbd : icache (after_evict m dip p e) !! dip = Some p) by apply lookup_insert_eq.
    exists e. eexists. split; [exact He |]. split; [exact Hfill |]. split; [exact Hbd |].
    intros Hmore. eexists.
    rewrite (hammer_alloc_objid_unbound m _ dip p Hnone Hfill Hbd).
    rewrite (objid_take_more _ dip p (mkOcp (Some dip) (ocp_next_tid e) (ocp_count e)));
      [| apply lookup_insert_eq | assumption].
    split; [reflexivity |]. split; [exact Hbd |].
    unfold after_evict, TAILQ_INSERT_TAIL, set_objid_cache_list.
    cbn [mount objid_cache_list]. rewrite Hl, TAILQ_REMOVE_head.
    split; [reflexivity | apply last_snoc].
  - intros p e Hp He Hmore. eexists.
    rewrite (hammer_alloc_objid_bound _ _ _ Hp), (objid_take_more _ _ _ _ He Hmore).
    split; [reflexivity |]. split; [reflexivity |]. apply last_snoc.
  - intros p Hp.
    destruct (wf_dir m Hwf dip p Hp) as (Hin & e & He & _).
    exists e. eexists. split; [exact He |]. split.
    { unfold hammer_clear_objid. rewrite Hp, He. reflexivity. }
    simpl. split; [reflexivity |]. split; [reflexivity |].
    split; [apply lookup_insert_eq |].
    split; [apply lookup_delete_eq |]. split; [reflexivity |].
    intros dip2 Hnone2 Hfull2. eexists. split.
    + apply objid_cache_fill_evict; trivial. apply lookup_insert_eq.
    + apply lookup_insert_eq.
Qed.

End CacheSteps.

(** The states used as examples are reached by serial runs, hence
    well formed. *)
Lemma two_dirs_mem_reached :
  snd (@objid_run two_entry_h (fresh_mount 100 (-1)) [OpAlloc 1%nat; OpAlloc 2%nat])
  = Ret two_dirs_mem.
Proof. vm_compute. reflexivity. Qed.

Lemma last_id_mem_reached :
  snd (@objid_run scenario_h (fresh_mount 100 (-1))
         [OpAlloc 7%nat; OpAlloc 7%nat; OpAlloc 7%nat])
  = Ret last_id_mem.
Proof. vm_compute. reflexivity. Qed.

Lemma two_dirs_mem_wf : objid_cache_wf two_dirs_mem.
Proof.
  apply (@fresh_run_reaches two_entry_h 100 (-1) [OpAlloc 1%nat; OpAlloc 2%nat]);
    [simpl; lia | simpl; lia | lia | unfold HAMMER_MAX_MASTERS; lia |].
  exact two_dirs_mem_reached.
Qed.

Lemma last_id_mem_wf : objid_cache_wf last_id_mem.
Proof.
  apply (@fresh_run_reaches scenario_h 100 (-1)
           [OpAlloc 7%nat; OpAlloc 7%nat; OpAlloc 7%nat]);
    [simpl; lia | simpl; lia | lia | unfold HAMMER_MAX_MASTERS; lia |].
  exact last_id_mem_reached.
Qed.


(** C5 on a pool of two, directory 1 served before directory 2: the
    third directory takes entry 0, the least recently used, from the
    head of the list and leaves it at the tail. *)
Lemma objid_cache_list_order_witness :
  exists m', @hammer_alloc_objid two_entry_h two_dirs_mem 3%nat = Ret (102, m') /\
             icache m' !! 3%nat = Some 0%nat /\
             objid_cache_list (mount m') = [1%nat; 0%nat].
Proof.
  destruct (@objid_cache_list_order two_entry_h two_dirs_mem 3%nat two_dirs_mem_wf eq_refl)
    as (_ & Hev & _).
  destruct (Hev 0%nat [1%nat] eq_refl ltac:(simpl; lia) eq_refl)
    as (e & m1 & He & _ & _ & Hmore).
  vm_compute in He. injection He as <-.
  destruct (Hmore ltac:(discriminate)) as (m' & Hret & Hbd & Hl & _).
  exists m'. repeat apply conj; assumption.
Defined.

(** C9 on the exhaustion scenario of the spec, a pool of one entry of
    four ids: three requests of directory 7 return 101, 102 and 103,
    the fourth does not return; neither does, from the state the three
    leave, a request of directory 8, which takes the entry over. *)
Lemma objid_entry_exhaustion_witness :
  (exists mk, @objid_draw scenario_h 3 (fresh_mount 100 (-1)) 7%nat
                = Ret ([101; 102; 103], mk)) /\
  @objid_draw scenario_h 4 (fresh_mount 100 (-1)) 7%nat = Panic /\
  @hammer_alloc_objid scenario_h last_id_mem 7%nat = Panic /\
  @hammer_alloc_objid scenario_h last_id_mem 8%nat = Panic.
Proof.
  assert (Hbulk : 1 <= @OBJID_CACHE_BULK scenario_h < 2 ^ 20) by (simpl; lia).
  destruct (fresh_mount_inv 100 (-1)) as (Hwf & Hcnt & _);
    [lia | unfold HAMMER_MAX_MASTERS; lia |].
  assert (Hnt : 0 <= next_tid (mount (fresh_mount 100 (-1))) < 2 ^ 64) by (simpl; lia).
  assert (Hmid : master_id (mount (fresh_mount 100 (-1))) < HAMMER_MAX_MASTERS)
    by (simpl; unfold HAMMER_MAX_MASTERS; lia).
  pose proof (@objid_entry_exhaustion scenario_h (fresh_mount 100 (-1)) 7%nat
                Hbulk Hwf Hcnt Hnt Hmid) as (_ & _ & Hnew).
  assert (Hroom : objid_cache_count (mount (fresh_mount 100 (-1)))
                  < @OBJID_CACHE_SIZE scenario_h) by (simpl; lia).
  pose proof (Hnew 101 (mkMount 105 (-1) [] 0) eq_refl Hroom eq_refl) as (Hsome & Hall & _).
  destruct (Hsome 3%nat ltac:(simpl; lia)) as (mk & Hdraw & _).
  assert (Hnt' : 0 <= next_tid (mount last_id_mem) < 2 ^ 64) by (simpl; lia).
  assert (Hmid' : master_id (mount last_id_mem) < HAMMER_MAX_MASTERS)
    by (simpl; unfold HAMMER_MAX_MASTERS; lia).
  pose proof (@objid_entry_exhaustion scenario_h last_id_mem 7%nat
                Hbulk last_id_mem_wf eq_refl Hnt' Hmid') as (Hown & _ & _).
  pose proof (@objid_entry_exhaustion scenario_h last_id_mem 8%nat
                Hbulk last_id_mem_wf eq_refl Hnt' Hmid') as (_ & Hevict & _).
  repeat apply conj.
  - exists mk. exact Hdraw.
  - exact Hall.
  - exact (Hown 0%nat (mkOcp (Some 7%nat) 104 1) eq_refl eq_refl eq_refl).
  - exact (Hevict 0%nat (mkOcp (Some 7%nat) 104 1) eq_refl ltac:(simpl; lia)
             eq_refl eq_refl eq_refl).
Defined.

(** C10 on a pool holding two entries: [hammer_destroy_objid_cache]
    does not return. *)
Lemma objid_cache_count_tracks_list_witness :
  hammer_destroy_objid_cache two_dirs_mem = Panic.
Proof.
  destruct (@objid_cache_count_tracks_list two_entry_h two_dirs_mem 1%nat)
    as (_ & _ & _ & Hpanic);
    [simpl; lia | exact two_dirs_mem_wf | reflexivity |].
  apply Hpanic. discriminate.
Defined.

(** The two cache scenarios of the spec, run on the model: a pool of
    one entry of four ids, single master, counter at 100.  In the
    first the fourth request of directory 7 ends the run. *)
Example scenario_exhaustion :
  @objid_run scenario_h (fresh_mount 100 (-1))
    [OpAlloc 7%nat; OpAlloc 7%nat; OpAlloc 7%nat; OpAlloc 7%nat; OpAlloc 8%nat]
  = ([101; 102; 103], Panic).
Proof. reflexivity. Qed.

Example scenario_eviction :
  fst (@objid_run scenario_h (fresh_mount 100 (-1))
         [OpAlloc 7%nat; OpAlloc 7%nat; OpAlloc 8%nat; OpAlloc 8%nat])
  = [101; 102; 103].
Proof. reflexivity. Qed.

(** * More on the TID allocator *)

(** What a returned call leaves, in either mode, for a count below
    2^20: the counter does not wrap, is aligned in multi-master mode,
    and sits right after the reservation. *)
Lemma hammer_alloc_tid_ret (hmp hmp' : hammer_mount) (count b : Z) :
  0 <= next_tid hmp < 2 ^ 64 -> master_id hmp < HAMMER_MAX_MASTERS ->
  0 <= count < 2 ^ 20 ->
  hammer_alloc_tid hmp count = Ret (b, hmp') ->
  hmp' = set_next_tid hmp (next_tid hmp') /\
  0 <= next_tid hmp' /\ next_tid hmp' + HAMMER_MAX_MASTERS < 2 ^ 64 /\
  0 <= b < HAMMER_TID_LIMIT /\
  b + objid_step hmp * count = next_tid hmp' + master_bits hmp /\
  b mod objid_step hmp = master_bits hmp /\
  next_tid hmp' mod objid_step hmp = 0 /\
  (next_tid hmp + HAMMER_MAX_MASTERS < 2 ^ 64 ->
   next_tid hmp + master_bits hmp < b /\
   b <= next_tid hmp + objid_step hmp + master_bits hmp).
Proof.
  intros Hn Hmid Hc Hret. split; [eapply hammer_alloc_tid_mount; eauto |].
  revert Hret. unfold hammer_alloc_tid, objid_step, master_bits.
  destruct (Z.ltb_spec (master_id hmp) 0) as [Hs | Hm].
  - destruct (Z.leb_spec HAMMER_TID_LIMIT (u64 (next_tid hmp + 1))) as [| Hlt]; [discriminate |].
    intros [= <- <-]. simpl.
    unfold HAMMER_TID_LIMIT, HAMMER_MAX_MASTERS, u64 in *. div_lia.
  - rewrite stride_above_land by lia.
    rewrite lor_stride_above by lia.
    destruct (Z.leb_spec HAMMER_TID_LIMIT (stride_above (next_tid hmp) + master_id hmp))
      as [| Hlt]; [discriminate |].
    intros [= <- <-]. simpl.
    unfold stride_above, HAMMER_TID_LIMIT, HAMMER_MAX_MASTERS, u64 in *. div_lia.
Qed.

(** X1.  In multi-master mode with a master id in 0..15, the low four
    bits of every id [hammer_alloc_tid] returns are the master id, and
    the counter it leaves is a multiple of 16. *)
Theorem hammer_alloc_tid_master_bits (hmp hmp' : hammer_mount) (count t : Z) :
  0 <= master_id hmp < HAMMER_MAX_MASTERS -> 0 <= next_tid hmp < 2 ^ 64 ->
  0 <= count < 2 ^ 20 ->
  hammer_alloc_tid hmp count = Ret (t, hmp') ->
  t mod HAMMER_MAX_MASTERS = master_id hmp /\
  Z.land t (HAMMER_MAX_MASTERS - 1) = master_id hmp /\
  next_tid hmp' mod HAMMER_MAX_MASTERS = 0 /\
  master_id hmp' = master_id hmp.
Proof.
  intros Hm Hn Hc Hret.
  destruct (hammer_alloc_tid_ret hmp hmp' count t Hn ltac:(lia) Hc Hret)
    as (Hmount & _ & _ & Ht & _ & Hmod & Hal & _).
  unfold objid_step, master_bits in *.
  destruct (Z.ltb_spec (master_id hmp) 0); [lia |].
  repeat apply conj; trivial.
  - unfold HAMMER_MAX_MASTERS in *. change (16 - 1) with (Z.ones 4).
    rewrite Z.land_ones by lia. exact Hmod.
  - rewrite Hmount. reflexivity.
Qed.

Lemma hammer_alloc_tid_master_bits_witness :
  114 mod HAMMER_MAX_MASTERS = 2 /\ Z.land 114 (HAMMER_MAX_MASTERS - 1) = 2 /\
  128 mod HAMMER_MAX_MASTERS = 0 /\ 2 = 2.
Proof.
  apply (hammer_alloc_tid_master_bits (mkMount 100 2 [] 0) (mkMount 128 2 [] 0) 1 114).
  - simpl. unfold HAMMER_MAX_MASTERS. lia.
  - simpl. lia.
  - lia.
  - reflexivity.
Defined.

Lemma alloc_tid_seq_above_step (counts : list Z) : forall (hmp : hammer_mount) (r : Z * Z),
  master_id hmp < HAMMER_MAX_MASTERS ->
  0 <= next_tid hmp -> next_tid hmp + HAMMER_MAX_MASTERS < 2 ^ 64 ->
  Forall (fun c => 0 <= c < 2 ^ 20) counts ->
  r ∈ alloc_tid_seq hmp counts -> next_tid hmp + master_bits hmp < fst r.
Proof.
  induction counts as [| c cs IH]; intros hmp r Hm Hn Hroom Hall; simpl.
  - intros Hin. inversion Hin.
  - inversion Hall as [| ? ? Hc Hcs]; subst.
    destruct (hammer_alloc_tid hmp c) as [[b hmp'] | | |] eqn:Hcall;
      try (intros Hin; inversion Hin; fail).
    destruct (hammer_alloc_tid_ret hmp hmp' c b) as (Hmount & Hn0 & Hr' & Hb & Hsum & _ & _ & Hup);
      [unfold HAMMER_MAX_MASTERS in *; lia | assumption | assumption | assumption |].
    specialize (Hup Hroom).
    assert (Hstep : 1 <= objid_step hmp).
    { unfold objid_step, HAMMER_MAX_MASTERS. destruct (master_id hmp <? 0); lia. }
    assert (Hsame : master_bits hmp' = master_bits hmp) by (rewrite Hmount; reflexivity).
    intros Hin. apply elem_of_cons in Hin as [-> | Hin].
    + simpl. lia.
    + apply IH in Hin; trivial.
      * rewrite Hsame in Hin. nia.
      * rewrite Hmount. assumption.
Qed.

Lemma alloc_tid_seq_ordered_step (counts : list Z) : forall (hmp : hammer_mount)
    (i j : nat) (ri rj : Z * Z),
  master_id hmp < HAMMER_MAX_MASTERS -> 0 <= next_tid hmp < 2 ^ 64 ->
  Forall (fun c => 0 <= c < 2 ^ 20) counts ->
  (i < j)%nat ->
  alloc_tid_seq hmp counts !! i = Some ri ->
  alloc_tid_seq hmp counts !! j = Some rj ->
  0 <= snd ri /\ fst ri + objid_step hmp * snd ri < fst rj /\
  (j = S i -> fst rj = fst ri + objid_step hmp * (snd ri + 1)).
Proof.
  induction counts as [| c cs IH]; intros hmp i j ri rj Hm Hn Hall Hij; simpl.
  - intros Hi. discriminate Hi.
  - inversion Hall as [| ? ? Hc Hcs]; subst.
    destruct (hammer_alloc_tid hmp c) as [[b hmp'] | | |] eqn:Hcall;
      try (intros Hi; discriminate Hi).
    destruct (hammer_alloc_tid_ret hmp hmp' c b) as (Hmount & Hn0 & Hr' & Hb & Hsum & _ & _ & _);
      trivial.
    assert (Hsame : master_bits hmp' = master_bits hmp) by (rewrite Hmount; reflexivity).
    assert (Hst : objid_step hmp' = objid_step hmp) by (rewrite Hmount; reflexivity).
    assert (Hm' : master_id hmp' < HAMMER_MAX_MASTERS) by (rewrite Hmount; assumption).
    destruct j as [| j]; [lia |].
    destruct i as [| i]; simpl.
    + intros [= <-] Hj. simpl. split; [lia |].
      pose proof Hj as Hin. apply list_elem_of_lookup_2 in Hin.
      apply alloc_tid_seq_above_step in Hin; trivial.
      split; [lia |]. intros [= ->].
      destruct cs as [| c2 cs2]; [discriminate Hj |]. simpl in Hj.
      inversion Hcs as [| ? ? Hc2 _]; subst.
      destruct (hammer_alloc_tid hmp' c2) as [[b2 hmp2] | | |] eqn:Hcall2;
        try discriminate Hj.
      injection Hj as <-. simpl.
      destruct (hammer_alloc_tid_ret hmp' hmp2 c2 b2) as (_ & _ & _ & _ & _ & Hmod2 & _ & Hup2);
        trivial; [unfold HAMMER_MAX_MASTERS in *; lia |].
      specialize (Hup2 Hr').
      destruct (hammer_alloc_tid_ret hmp hmp' c b) as (_ & _ & _ & _ & _ & _ & Hal & _);
        trivial.
      rewrite Hst, Hsame in *.
      revert Hmod2 Hal Hup2 Hsum. unfold objid_step, master_bits, HAMMER_MAX_MASTERS in *.
      destruct (master_id hmp <? 0); intros; div_lia.
    + intros Hi Hj. rewrite <- Hst.
      destruct (IH hmp' i j ri rj) as (H1 & H2 & H3); trivial;
        [unfold HAMMER_MAX_MASTERS in *; lia | lia |].
      repeat apply conj; trivial. intros [= ->]. auto.
Qed.

(** X2.  Successive allocations, in either mode, with counts below
    2^20: the base of a call that returns is the base of the call
    before it plus [count + 1] steps (step 1 in single-master mode, 16
    in multi-master mode), so one step is skipped between two
    reservations. *)
Theorem alloc_tid_seq_gap (hmp : hammer_mount) (counts : list Z)
    (i : nat) (ri rj : Z * Z) :
  master_id hmp < HAMMER_MAX_MASTERS -> 0 <= next_tid hmp < 2 ^ 64 ->
  Forall (fun c => 0 <= c < 2 ^ 20) counts ->
  alloc_tid_seq hmp counts !! i = Some ri ->
  alloc_tid_seq hmp counts !! S i = Some rj ->
  fst rj = fst ri + objid_step hmp * (snd ri + 1).
Proof.
  intros Hm Hn Hall Hi Hj.
  destruct (alloc_tid_seq_ordered_step counts hmp i (S i) ri rj) as (_ & _ & Hgap);
    trivial; [lia | auto].
Qed.

Lemma alloc_tid_seq_gap_witness :
  fst (178, 1) = fst (114, 3) + objid_step (mkMount 100 2 [] 0) * (snd (114, 3) + 1).
Proof.
  apply (alloc_tid_seq_gap (mkMount 100 2 [] 0) [3; 1] 0%nat (114, 3) (178, 1)).
  - simpl. unfold HAMMER_MAX_MASTERS. lia.
  - simpl. lia.
  - repeat constructor; lia.
  - reflexivity.
  - reflexivity.
Defined.

(** X3.  In multi-master mode, for counts below 2^20, the bases of the
    calls that return strictly increase, and the whole stride range of
    an earlier call, [base, base + 16 * count), lies below the base of
    every later call. *)
Theorem alloc_tid_seq_multi_master (hmp : hammer_mount) (counts : list Z)
    (i j : nat) (ri rj : Z * Z) :
  0 <= master_id hmp < HAMMER_MAX_MASTERS -> 0 <= next_tid hmp < 2 ^ 64 ->
  Forall (fun c => 0 <= c < 2 ^ 20) counts ->
  (i < j)%nat ->
  alloc_tid_seq hmp counts !! i = Some ri ->
  alloc_tid_seq hmp counts !! j = Some rj ->
  fst ri < fst rj /\ fst ri + HAMMER_MAX_MASTERS * snd ri < fst rj.
Proof.
  intros Hm Hn Hall Hij Hi Hj.
  destruct (alloc_tid_seq_ordered_step counts hmp i j ri rj) as (Hc & Hlt & _);
    trivial; [lia |].
  unfold objid_step in Hlt. destruct (Z.ltb_spec (master_id hmp) 0); [lia |].
  unfold HAMMER_MAX_MASTERS in *. lia.
Qed.

Lemma alloc_tid_seq_multi_master_witness :
  fst (114, 3) < fst (178, 1) /\ fst (114, 3) + HAMMER_MAX_MASTERS * snd (114, 3) < fst (178, 1).
Proof.
  apply (alloc_tid_seq_multi_master (mkMount 100 2 [] 0) [3; 1] 0%nat 1%nat (114, 3) (178, 1)).
  - simpl. unfold HAMMER_MAX_MASTERS. lia.
  - simpl. lia.
  - repeat constructor; lia.
  - lia.
  - reflexivity.
  - reflexivity.
Defined.

(** * More on the object id cache *)

Section RunIds.
Context `{hammer_h}.

Lemma mount_run_state (ops : list objid_op) : forall m,
  snd (mount_run m ops) = snd (objid_run m ops).
Proof.
  induction ops as [| op ops IH]; intros m; [reflexivity |].
  destruct op as [dip | dip |]; simpl.
  - destruct (hammer_alloc_objid m dip) as [[t m'] | | |]; trivial.
    specialize (IH m'). destruct (mount_run m' ops), (objid_run m' ops). exact IH.
  - destruct (hammer_clear_objid m dip); trivial.
  - destruct (hammer_alloc_tid (mount m) 1) as [[t hmp] | | |]; trivial.
    specialize (IH (mkKmem hmp (ocache m) (icache m) (brk m))).
    destruct (mount_run _ ops). exact IH.
Qed.

(** A TID drawn on its own is new as well. *)
Lemma alloc_tid_op_ids (m : kmem) (hmp : hammer_mount) (t : Z) (issued : list Z) :
  objid_ids_inv m issued ->
  hammer_alloc_tid (mount m) 1 = Ret (t, hmp) ->
  objid_ids_inv (mkKmem hmp (ocache m) (icache m) (brk m)) (t :: issued).
Proof.
  intros [Hn Hr Hms Hent Hap Hiss Hbel Hnd] Halloc.
  destruct (hammer_alloc_tid_reserve (mount m) hmp 1 t Hn Hms ltac:(lia) Halloc)
    as (Hmount & Ht0 & Htl & Hn0 & Hnr & Hup).
  rewrite Hmount.
  destruct m as [[nt mid l c] oc ic b].
  unfold ocp_last, objid_step, HAMMER_MAX_MASTERS in *; simpl in *.
  assert (Hold : forall x, x ∈ issued -> x < t /\ x <= next_tid hmp).
  { intros x Hx. specialize (Hbel x Hx).
    destruct Hr as [Hr | [Hi _]]; [| rewrite Hi in Hx; inversion Hx].
    specialize (Hup Hr). lia. }
  assert (Hel : forall q f, q ∈ l -> oc !! q = Some f ->
            ocp_next_tid f + (if mid <? 0 then 1 else 16) * (ocp_count f - 1) < t /\
            ocp_next_tid f + (if mid <? 0 then 1 else 16) * (ocp_count f - 1)
              <= next_tid hmp).
  { intros q f Hq Hf. destruct (Hent q f Hq Hf).
    destruct Hr as [Hr | [_ Hl]]; [| rewrite Hl in Hq; inversion Hq].
    specialize (Hup Hr). lia. }
  constructor; unfold ocp_last, objid_step, HAMMER_MAX_MASTERS; simpl; trivial.
  - lia.
  - by left.
  - intros q f Hq Hf. destruct (Hent q f Hq Hf). specialize (Hel q f Hq Hf). lia.
  - intros x q f Hx Hq Hf. apply elem_of_cons in Hx as [-> | Hx].
    + specialize (Hel q f Hq Hf). lia.
    + by apply (Hiss x q).
  - intros x Hx. apply elem_of_cons in Hx as [-> | Hx].
    + lia.
    + specialize (Hold x Hx). lia.
  - apply NoDup_cons. split; [| assumption].
    intros Hin. specialize (Hold t Hin). lia.
Qed.

Lemma mount_run_inv (ops : list objid_op) : forall (m : kmem) (issued : list Z),
  1 <= OBJID_CACHE_BULK < 2 ^ 20 ->
  objid_cache_wf m -> count_inv m -> objid_ids_inv m issued ->
  NoDup (fst (mount_run m ops)) /\
  (forall x, x ∈ fst (mount_run m ops) -> x ∉ issued).
Proof.
  induction ops as [| op ops IH]; intros m issued Hbulk Hwf Hcnt Hids.
  - simpl. split; [constructor |]. intros x Hx. inversion Hx.
  - assert (Hstop : forall r : result kmem,
              NoDup (fst (@nil Z, r)) /\ (forall x, x ∈ fst (@nil Z, r) -> x ∉ issued)).
    { intros r. simpl. split; [constructor |]. intros x Hx. inversion Hx. }
    assert (Hcons : forall t m', objid_ids_inv m' (t :: issued) ->
              (NoDup (fst (mount_run m' ops)) /\
               (forall x, x ∈ fst (mount_run m' ops) -> x ∉ t :: issued)) ->
              NoDup (fst (let '(ids, r) := mount_run m' ops in (t :: ids, r))) /\
              (forall x, x ∈ fst (let '(ids, r) := mount_run m' ops in (t :: ids, r)) ->
                         x ∉ issued)).
    { intros t m' Hids' [Hnd Hnew]. destruct (mount_run m' ops) as [ids r]. simpl in *.
      split.
      - apply NoDup_cons. split; [| assumption].
        intros Hin. apply (Hnew t Hin). left.
      - intros x Hx. apply elem_of_cons in Hx as [-> | Hx].
        + pose proof (ids_nodup _ _ Hids') as Hnd'. apply NoDup_cons in Hnd'. tauto.
        + intros Hxi. apply (Hnew x Hx). by right. }
    destruct op as [dip | dip |]; simpl.
    + destruct (hammer_alloc_objid m dip) as [[t m'] | | |] eqn:Hcall; try apply Hstop.
      destruct (hammer_alloc_objid_wf m m' dip t) as [Hwf' Hcnt']; trivial; [lia |].
      pose proof (hammer_alloc_objid_ids m m' dip t issued Hbulk Hwf Hcnt Hids Hcall) as Hids'.
      apply Hcons; [assumption |]. by apply IH.
    + destruct (hammer_clear_objid m dip) as [m' | | |] eqn:Hcall; try apply Hstop.
      destruct (hammer_clear_objid_wf m m' dip) as [Hwf' Hcnt']; trivial.
      apply IH; trivial. by apply (hammer_clear_objid_ids m m' dip issued).
    + destruct (hammer_alloc_tid (mount m) 1) as [[t hmp] | | |] eqn:Hcall; try apply Hstop.
      destruct (alloc_tid_op_inv m hmp t issued) as (Hwf' & Hcnt' & _); trivial.
      pose proof (alloc_tid_op_ids m hmp t issued Hids Hcall) as Hids'.
      apply Hcons; [assumption |]. by apply IH.
Qed.

(** X4.  TIDs and object ids come from one space and never collide:
    over any serial run on a mount started with an empty cache, the ids
    handed out, object ids and single TIDs together, are pairwise
    distinct. *)
Theorem mount_ids_distinct (next master : Z) (ops : list objid_op) :
  1 <= OBJID_CACHE_BULK < 2 ^ 20 ->
  0 <= next < 2 ^ 64 -> master < HAMMER_MAX_MASTERS ->
  NoDup (fst (mount_run (fresh_mount next master) ops)).
Proof.
  intros Hbulk Hn Hm.
  destruct (fresh_mount_inv next master Hn Hm) as (Hwf0 & Hcnt0 & Hids0).
  by destruct (mount_run_inv ops (fresh_mount next master) [] Hbulk Hwf0 Hcnt0 Hids0).
Qed.

End RunIds.

Section RunStates.
Context `{hammer_h}.

(** X5.  In every state a serial run reaches from an empty cache, the
    pool holds at most [OBJID_CACHE_SIZE] entries, [objid_cache_count]
    is their number, and the allocated entries are exactly those on
    the list: none leaks. *)
Theorem objid_pool_within_capacity (next master : Z) (ops : list objid_op) (m : kmem) :
  0 <= OBJID_CACHE_SIZE -> 1 <= OBJID_CACHE_BULK < 2 ^ 20 ->
  0 <= next < 2 ^ 64 -> master < HAMMER_MAX_MASTERS ->
  snd (objid_run (fresh_mount next master) ops) = Ret m ->
  (length (objid_cache_list (mount m)) <= Z.to_nat OBJID_CACHE_SIZE)%nat /\
  objid_cache_count (mount m) = Z.of_nat (length (objid_cache_list (mount m))) /\
  size (ocache m) = length (objid_cache_list (mount m)) /\
  (forall p, is_Some (ocache m !! p) <-> p ∈ objid_cache_list (mount m)).
Proof.
  intros Hsize Hbulk Hn Hm Hrun.
  destruct (fresh_run_reaches next master ops m) as (Hwf & Hcnt & Hb & _); trivial.
  unfold count_inv, pool_bounded in *.
  assert (Hdom : forall p, is_Some (ocache m !! p) <-> p ∈ objid_cache_list (mount m)).
  { intros p. split.
    - intros [e He]. by destruct (wf_live m Hwf p e He).
    - intros Hp. destruct (wf_entry m Hwf p Hp) as (e & He & _). eauto. }
  repeat apply conj; trivial; [lia |].
  rewrite <- size_dom.
  replace (dom (ocache m)) with (list_to_set (objid_cache_list (mount m)) : gset nat).
  - apply size_list_to_set, (wf_nodup m Hwf).
  - apply set_eq. intros p. rewrite elem_of_list_to_set, elem_of_dom. symmetry. apply Hdom.
Qed.

(** X6.  In every such state directories and entries are bound one to
    one: a directory's pointer leads to a live entry whose back pointer
    names that directory, an entry's back pointer names a directory
    whose pointer leads to that entry, and no two entries name the same
    directory. *)
Theorem objid_binding_one_to_one (next master : Z) (ops : list objid_op) (m : kmem) :
  0 <= OBJID_CACHE_SIZE -> 1 <= OBJID_CACHE_BULK < 2 ^ 20 ->
  0 <= next < 2 ^ 64 -> master < HAMMER_MAX_MASTERS ->
  snd (objid_run (fresh_mount next master) ops) = Ret m ->
  (forall d p, icache m !! d = Some p ->
     exists e, ocache m !! p = Some e /\ ocp_dip e = Some d) /\
  (forall p e d, ocache m !! p = Some e -> ocp_dip e = Some d -> icache m !! d = Some p) /\
  (forall p q e f d, ocache m !! p = Some e -> ocache m !! q = Some f ->
     ocp_dip e = Some d -> ocp_dip f = Some d -> p = q).
Proof.
  intros Hsize Hbulk Hn Hm Hrun.
  destruct (fresh_run_reaches next master ops m) as (Hwf & _); trivial.
  assert (Hback : forall p e d, ocache m !! p = Some e -> ocp_dip e = Some d ->
            icache m !! d = Some p).
  { intros p e d He Hd. destruct (wf_live m Hwf p e He) as [_ Hp].
    destruct (wf_entry m Hwf p Hp) as (e' & He' & _ & Hb).
    apply Hb. congruence. }
  repeat apply conj; trivial.
  - intros d p Hd. destruct (wf_dir m Hwf d p Hd) as (_ & e & He & Hed). eauto.
  - intros p q e f d He Hf Hed Hfd.
    pose proof (Hback p e d He Hed). pose proof (Hback q f d Hf Hfd). congruence.
Qed.

(** What one pass of the loop body does to the counter and to the
    low bits of the entries, whatever the shape of the cache. *)
Lemma objid_cache_fill_counter (m m1 : kmem) (dip : nat) :
  0 <= OBJID_CACHE_BULK < 2 ^ 20 ->
  counter_ok m -> objid_cache_fill m dip = Ret m1 ->
  counter_ok m1 /\ next_tid (mount m) <= next_tid (mount m1) /\
  master_id (mount m1) = master_id (mount m) /\
  (0 <= master_id (mount m) -> entries_carry_master m -> entries_carry_master m1).
Proof.
  intros Hbulk (Hn & Hroom & Hmid). unfold objid_cache_fill, counter_ok.
  destruct (objid_cache_count (mount m) <? OBJID_CACHE_SIZE).
  - destruct (hammer_alloc_tid (mount m) OBJID_CACHE_BULK) as [[t hmp] | | |] eqn:Halloc;
      simpl; try discriminate.
    destruct (hammer_alloc_tid_ret (mount m) hmp OBJID_CACHE_BULK t)
      as (Hmount & Hn0 & Hr & Ht & Hsum & Hmod & _ & Hup); trivial;
      [unfold HAMMER_MAX_MASTERS in *; lia |].
    specialize (Hup Hroom).
    assert (Hmaster : master_id hmp = master_id (mount m)) by (rewrite Hmount; reflexivity).
    assert (Hnew : 0 <= master_id (mount m) -> t mod HAMMER_MAX_MASTERS = master_id (mount m)).
    { intros H0. unfold objid_step, master_bits in Hmod.
      destruct (Z.ltb_spec (master_id (mount m)) 0); [lia | exact Hmod]. }
    assert (Hle : next_tid (mount m) <= next_tid hmp).
    { revert Hsum Hup. unfold objid_step, master_bits, HAMMER_MAX_MASTERS.
      destruct (master_id (mount m) <? 0); lia. }
    destruct (icache m !! dip); intros [= <-]; simpl; rewrite Hmaster;
      repeat apply conj; trivial.
    all: intros H0 Hcarry p e; simpl; rewrite lookup_insert, Hmaster; case_decide;
      [intros [= <-]; simpl; auto | intros He; by apply (Hcarry p)].
  - destruct (TAILQ_FIRST _) as [p |]; [| discriminate].
    destruct (ocache m !! p) as [e |] eqn:He; [| discriminate].
    intros [= <-]. simpl. repeat apply conj; trivial; [lia |].
    intros H0 Hcarry q f. simpl. rewrite lookup_insert. case_decide.
    + intros [= <-]. simpl. by apply (Hcarry p).
    + apply Hcarry.
Qed.

Lemma objid_take_master (m m2 : kmem) (dip p : nat) (t : Z) :
  objid_take m dip p = Ret (t, m2) ->
  next_tid (mount m2) = next_tid (mount m) /\ master_id (mount m2) = master_id (mount m) /\
  (0 <= master_id (mount m) -> entries_carry_master m ->
   t mod HAMMER_MAX_MASTERS = master_id (mount m) /\ entries_carry_master m2).
Proof.
  rewrite objid_take_unfold. destruct (ocache m !! p) as [e |] eqn:He; [| discriminate].
  destruct (ocp_count e - 1 =? 0); [discriminate |].
  intros [= <- <-]; simpl; repeat apply conj; trivial.
  intros H0 Hcarry. split; [by apply (Hcarry p) |].
  intros q f. simpl. rewrite lookup_insert. case_decide; [| apply Hcarry].
  intros [= <-]. simpl. specialize (Hcarry p e He). unfold objid_step.
  destruct (Z.ltb_spec (master_id (mount m)) 0); [lia |].
  unfold u64, HAMMER_MAX_MASTERS in *. div_lia.
Qed.

Lemma hammer_alloc_objid_counter (m m' : kmem) (dip : nat) (t : Z) :
  0 <= OBJID_CACHE_BULK < 2 ^ 20 ->
  counter_ok m -> hammer_alloc_objid m dip = Ret (t, m') ->
  counter_ok m' /\ next_tid (mount m) <= next_tid (mount m') /\
  master_id (mount m') = master_id (mount m) /\
  (0 <= master_id (mount m) -> entries_carry_master m ->
   t mod HAMMER_MAX_MASTERS = master_id (mount m) /\ entries_carry_master m').
Proof.
  intros Hbulk Hok Hcall.
  destruct (hammer_alloc_objid_ret _ _ _ _ Hcall)
    as (mf & p & Hp & Htake & [[_ ->] | [Hnone Hfill]]);
    destruct (objid_take_master _ _ _ _ _ Htake) as (Hnt & Hms & Hcarry).
  - unfold counter_ok in *. rewrite Hnt, Hms. repeat apply conj; tauto || lia.
  - destruct (objid_cache_fill_counter m mf dip Hbulk Hok Hfill) as (Hokf & Hle & Hmf & Hcf).
    unfold counter_ok in *. rewrite Hnt, Hms, Hmf in *.
    repeat apply conj; try tauto; try lia.
Qed.

Lemma hammer_clear_objid_counter (m m' : kmem) (dip : nat) :
  hammer_clear_objid m dip = Ret m' ->
  next_tid (mount m') = next_tid (mount m) /\ master_id (mount m') = master_id (mount m) /\
  (entries_carry_master m -> entries_carry_master m').
Proof.
  unfold hammer_clear_objid. destruct (icache m !! dip) as [p |].
  - destruct (ocache m !! p) as [e |] eqn:He; [| discriminate].
    intros [= <-]. simpl. repeat apply conj; trivial.
    intros Hcarry q f. simpl. rewrite lookup_insert. case_decide; [| apply Hcarry].
    intros [= <-]. simpl. by apply (Hcarry p).
  - intros [= <-]. auto.
Qed.

Lemma alloc_tid_op_counter (m : kmem) (hmp : hammer_mount) (t : Z) :
  counter_ok m -> hammer_alloc_tid (mount m) 1 = Ret (t, hmp) ->
  counter_ok (mkKmem hmp (ocache m) (icache m) (brk m)) /\
  next_tid (mount m) <= next_tid hmp /\ master_id hmp = master_id (mount m) /\
  (0 <= master_id (mount m) -> t mod HAMMER_MAX_MASTERS = master_id (mount m)).
Proof.
  intros (Hn & Hroom & Hmid) Hcall. unfold counter_ok. simpl.
  destruct (hammer_alloc_tid_ret (mount m) hmp 1 t)
    as (Hmount & Hn0 & Hr & Ht & Hsum & Hmod & _ & Hup); trivial;
    [unfold HAMMER_MAX_MASTERS in *; lia | lia |].
  specialize (Hup Hroom).
  assert (Hmaster : master_id hmp = master_id (mount m)) by (rewrite Hmount; reflexivity).
  rewrite Hmaster. repeat apply conj; trivial.
  - revert Hsum Hup. unfold objid_step, master_bits, HAMMER_MAX_MASTERS.
    destruct (master_id (mount m) <? 0); lia.
  - intros H0. unfold objid_step, master_bits in Hmod.
    destruct (Z.ltb_spec (master_id (mount m)) 0); [lia | exact Hmod].
Qed.

(** A run step by step: the counter never moves back, and in
    multi-master mode every id handed out carries the master id. *)
Lemma mount_run_counter (ops : list objid_op) : forall (m0 m : kmem),
  0 <= OBJID_CACHE_BULK < 2 ^ 20 ->
  counter_ok m0 ->
  snd (mount_run m0 ops) = Ret m ->
  counter_ok m /\ next_tid (mount m0) <= next_tid (mount m) /\
  master_id (mount m) = master_id (mount m0).
Proof.
  induction ops as [| op ops IH]; intros m0 m Hbulk Hok.
  - simpl. intros [= <-]. split; [assumption | split; [lia | reflexivity]].
  - destruct op as [dip | dip |]; simpl.
    + destruct (hammer_alloc_objid m0 dip) as [[t m1] | | |] eqn:Hcall; try discriminate.
      destruct (hammer_alloc_objid_counter m0 m1 dip t Hbulk Hok Hcall)
        as (Hok1 & Hle & Hms & _).
      specialize (IH m1 m Hbulk Hok1).
      destruct (mount_run m1 ops) as [ids r]. simpl in *. intros Hr.
      destruct (IH Hr) as (Hokm & Hle' & Hms'). split; [assumption | split; [lia | congruence]].
    + destruct (hammer_clear_objid m0 dip) as [m1 | | |] eqn:Hcall; try discriminate.
      destruct (hammer_clear_objid_counter m0 m1 dip Hcall) as (Hnt & Hms & _).
      intros Hr. destruct (IH m1 m Hbulk) as (Hokm & Hle' & Hms'); trivial.
      * unfold counter_ok in *. rewrite Hnt, Hms. assumption.
      * split; [assumption | split; [lia | congruence]].
    + destruct (hammer_alloc_tid (mount m0) 1) as [[t hmp] | | |] eqn:Hcall; try discriminate.
      destruct (alloc_tid_op_counter m0 hmp t Hok Hcall) as (Hok1 & Hle & Hms & _).
      specialize (IH (mkKmem hmp (ocache m0) (icache m0) (brk m0)) m Hbulk Hok1).
      destruct (mount_run _ ops) as [ids r]. simpl in *. intros Hr.
      destruct (IH Hr) as (Hokm & Hle' & Hms'). split; [assumption | split; [lia | congruence]].
Qed.

Lemma mount_run_master (ops : list objid_op) : forall (m0 : kmem) (x : Z),
  0 <= OBJID_CACHE_BULK < 2 ^ 20 ->
  counter_ok m0 -> 0 <= master_id (mount m0) -> entries_carry_master m0 ->
  x ∈ fst (mount_run m0 ops) ->
  x mod HAMMER_MAX_MASTERS = master_id (mount m0).
Proof.
  induction ops as [| op ops IH]; intros m0 x Hbulk Hok H0 Hcarry.
  - simpl. intros Hx. inversion Hx.
  - destruct op as [dip | dip |]; simpl.
    + destruct (hammer_alloc_objid m0 dip) as [[t m1] | | |] eqn:Hcall;
        try (intros Hx; inversion Hx; fail).
      destruct (hammer_alloc_objid_counter m0 m1 dip t Hbulk Hok Hcall)
        as (Hok1 & _ & Hms & Hc).
      destruct (Hc H0 Hcarry) as [Ht Hcarry1].
      specialize (IH m1 x Hbulk Hok1 ltac:(lia) Hcarry1).
      destruct (mount_run m1 ops) as [ids r]. simpl in *. intros Hx.
      apply elem_of_cons in Hx as [-> | Hx]; [assumption |].
      rewrite <- Hms. auto.
    + destruct (hammer_clear_objid m0 dip) as [m1 | | |] eqn:Hcall;
        try (intros Hx; inversion Hx; fail).
      destruct (hammer_clear_objid_counter m0 m1 dip Hcall) as (Hnt & Hms & Hc).
      intros Hx. rewrite <- Hms. apply (IH m1 x); trivial.
      * unfold counter_ok in *. rewrite Hnt, Hms. assumption.
      * lia.
      * auto.
    + destruct (hammer_alloc_tid (mount m0) 1) as [[t hmp] | | |] eqn:Hcall;
        try (intros Hx; inversion Hx; fail).
      destruct (alloc_tid_op_counter m0 hmp t Hok Hcall) as (Hok1 & _ & Hms & Ht).
      specialize (IH (mkKmem hmp (ocache m0) (icache m0) (brk m0)) x Hbulk Hok1).
      destruct (mount_run _ ops) as [ids r]. simpl in *. intros Hx.
      apply elem_of_cons in Hx as [-> | Hx]; [auto |].
      rewrite <- Hms. apply IH; trivial; [lia |].
      intros p e He. simpl in *. rewrite Hms. by apply (Hcarry p).
Qed.

(** X7.  Over a serial run the TID counter never moves back, and it
    keeps room for the next reservation, so no later reservation
    wraps. *)
Theorem mount_counter_monotone (m0 m : kmem) (ops : list objid_op) :
  0 <= OBJID_CACHE_BULK < 2 ^ 20 ->
  0 <= next_tid (mount m0) -> next_tid (mount m0) + HAMMER_MAX_MASTERS < 2 ^ 64 ->
  master_id (mount m0) < HAMMER_MAX_MASTERS ->
  snd (objid_run m0 ops) = Ret m ->
  next_tid (mount m0) <= next_tid (mount m) /\
  next_tid (mount m) + HAMMER_MAX_MASTERS < 2 ^ 64 /\
  master_id (mount m) = master_id (mount m0).
Proof.
  intros Hbulk Hn Hroom Hmid Hrun. rewrite <- mount_run_state in Hrun.
  destruct (mount_run_counter ops m0 m Hbulk) as ((_ & Hr & _) & Hle & Hms); trivial.
  - repeat split; trivial.
  - auto.
Qed.

(** X8.  In multi-master mode with a master id in 0..15, every id a
    serial run hands out, object id or TID, has the master id in its
    low four bits. *)
Theorem mount_ids_master_bits (next master : Z) (ops : list objid_op) (x : Z) :
  0 <= OBJID_CACHE_BULK < 2 ^ 20 ->
  0 <= next -> next + HAMMER_MAX_MASTERS < 2 ^ 64 ->
  0 <= master < HAMMER_MAX_MASTERS ->
  x ∈ fst (mount_run (fresh_mount next master) ops) ->
  x mod HAMMER_MAX_MASTERS = master.
Proof.
  intros Hbulk Hn Hroom Hm Hx.
  apply (mount_run_master ops (fresh_mount next master) x); trivial.
  - repeat split; simpl; trivial; lia.
  - simpl. lia.
  - intros p e He. simpl in He. rewrite lookup_empty in He. discriminate.
Qed.

End RunStates.

Section CacheComposition.
Context `{hammer_h}.

(** X9.  With the pool at capacity, releasing a directory's entry and
    asking an id for the same directory right away is the same as
    asking without the release: the released entry is at the head, so
    the request takes it back, returns the same id and leaves the same
    memory (or, when the entry holds one id only, ends in the same
    panic). *)
Theorem hammer_clear_then_alloc (m : kmem) (dip p : nat) :
  objid_cache_wf m -> icache m !! dip = Some p ->
  OBJID_CACHE_SIZE <= objid_cache_count (mount m) ->
  (hammer_clear_objid m dip ≫= fun m' => hammer_alloc_objid m' dip)
  = hammer_alloc_objid m dip.
Proof.
  intros Hwf Hp Hfull.
  destruct (wf_dir m Hwf dip p Hp) as (Hin & e & He & Hed).
  pose proof (wf_nodup m Hwf) as Hnd.
  unfold hammer_clear_objid at 1. rewrite Hp, He, result_bind_ret.
  match goal with |- hammer_alloc_objid ?mc dip = _ => set (Mc := mc) end.
  set (e' := mkOcp None (ocp_next_tid e) (ocp_count e)).
  assert (Hnone : icache Mc !! dip = None) by apply lookup_delete_eq.
  assert (Hfill : objid_cache_fill Mc dip = Ret (after_evict Mc dip p e')).
  { apply objid_cache_fill_evict; trivial. apply lookup_insert_eq. }
  assert (Hbd : icache (after_evict Mc dip p e') !! dip = Some p) by apply lookup_insert_eq.
  rewrite (hammer_alloc_objid_unbound Mc _ dip p Hnone Hfill Hbd).
  rewrite (hammer_alloc_objid_bound m dip p Hp).
  assert (Hl : TAILQ_REMOVE (TAILQ_INSERT_HEAD (TAILQ_REMOVE (objid_cache_list (mount m)) p) p) p
               = TAILQ_REMOVE (objid_cache_list (mount m)) p) by apply TAILQ_REMOVE_head.
  assert (Hic : <[dip := p]> (clear_owner e' (delete dip (icache m))) = icache m).
  { unfold clear_owner. simpl. rewrite insert_delete_eq. by apply insert_id. }
  destruct (decide (ocp_count e = 1)) as [Hone | Hmore].
  - rewrite (objid_take_last _ dip p (mkOcp (Some dip) (ocp_next_tid e) (ocp_count e)));
      [| apply lookup_insert_eq | assumption].
    rewrite (objid_take_last m dip p e He Hone). reflexivity.
  - rewrite (objid_take_more _ dip p (mkOcp (Some dip) (ocp_next_tid e) (ocp_count e)));
      [| apply lookup_insert_eq | assumption].
    rewrite (objid_take_more m dip p e He Hmore).
    subst Mc. unfold after_evict, set_objid_cache_list, objid_step.
    cbn [mount ocache icache brk next_tid master_id objid_cache_list objid_cache_count
         ocp_next_tid ocp_dip ocp_count].
    rewrite Hl, Hic, !insert_insert_eq, Hed. reflexivity.
Qed.

(** X10.  The loop of [hammer_alloc_objid] runs its body at most once:
    allowing more passes never changes the outcome, which is never
    that of a loop cut short. *)
Theorem objid_cache_loop_one_pass (fuel : nat) (m : kmem) (dip : nat) :
  objid_cache_loop (S fuel) m dip = objid_cache_loop 1 m dip /\
  objid_cache_loop (S fuel) m dip <> Spin.
Proof.
  assert (Heq : objid_cache_loop (S fuel) m dip = objid_cache_loop 1 m dip).
  { destruct (icache m !! dip) as [p |] eqn:Hdip.
    - by rewrite !(objid_cache_loop_bound _ _ _ _ Hdip).
    - simpl. rewrite Hdip.
      destruct (objid_cache_fill m dip) as [m1 | | |] eqn:Hfill; trivial.
      destruct (objid_cache_fill_binds _ _ _ Hdip Hfill) as [p Hp].
      rewrite !result_bind_ret, Hp. apply (objid_cache_loop_bound _ _ _ _ Hp). }
  split; [exact Heq |]. rewrite Heq.
  destruct (icache m !! dip) as [p |] eqn:Hdip.
  - by rewrite (objid_cache_loop_bound _ _ _ _ Hdip).
  - rewrite objid_cache_loop_once by assumption.
    destruct (objid_cache_fill m dip) as [m1 | | |] eqn:Hfill; simpl; try discriminate.
    + destruct (objid_cache_fill_binds _ _ _ Hdip Hfill) as [p ->]. discriminate.
    + revert Hfill. unfold objid_cache_fill.
      destruct (objid_cache_count (mount m) <? OBJID_CACHE_SIZE).
      * rewrite hammer_alloc_tid_unfold.
        destruct (HAMMER_TID_LIMIT <=? _); simpl; [discriminate |].
        destruct (icache m !! dip); discriminate.
      * destruct (TAILQ_FIRST _) as [p |]; [| discriminate].
        destruct (ocache m !! p); discriminate.
Qed.

End CacheComposition.

(** X11.  In the code as it stands no start routine returns.  Each
    of them ends in a panic whatever hammer_get_root_volume gives: the
    two plain ones at the assertion on [error] or, past it, in
    [getmicrotime]; the flusher's in [bzero], its first statement,
    before it reserves a TID. *)
Theorem hammer_start_never_returns (hmp : hammer_mount) (vol : option nat) (error : Z) :
  hammer_start_transaction vol error = Panic /\
  hammer_simple_transaction vol error = Panic /\
  hammer_start_transaction_fls hmp vol error = Panic.
Proof.
  unfold hammer_start_transaction, hammer_simple_transaction,
    hammer_start_transaction_fls.
  repeat apply conj; [destruct (error =? 0); reflexivity .. | reflexivity].
Qed.

Section RunOrder.
Context `{hammer_h}.

Lemma mount_run_reaches (ops : list objid_op) : forall (m0 m : kmem) (issued : list Z),
  1 <= OBJID_CACHE_BULK < 2 ^ 20 ->
  objid_cache_wf m0 -> count_inv m0 -> objid_ids_inv m0 issued ->
  snd (mount_run m0 ops) = Ret m ->
  exists issued', objid_ids_inv m issued' /\
                  (forall x, x ∈ issued -> x ∈ issued') /\
                  (forall x, x ∈ fst (mount_run m0 ops) -> x ∈ issued').
Proof.
  induction ops as [| op ops IH]; intros m0 m issued Hbulk Hwf Hcnt Hids.
  - simpl. intros [= <-]. exists issued. repeat apply conj; trivial.
    intros x Hx. inversion Hx.
  - assert (Hcons : forall t m1, objid_cache_wf m1 -> count_inv m1 ->
              objid_ids_inv m1 (t :: issued) ->
              snd (let '(ids, r) := mount_run m1 ops in (t :: ids, r)) = Ret m ->
              exists issued', objid_ids_inv m issued' /\
                (forall x, x ∈ issued -> x ∈ issued') /\
                (forall x, x ∈ fst (let '(ids, r) := mount_run m1 ops in (t :: ids, r)) ->
                           x ∈ issued')).
    { intros t m1 Hwf1 Hcnt1 Hids1.
      specialize (IH m1 m (t :: issued) Hbulk Hwf1 Hcnt1 Hids1).
      destruct (mount_run m1 ops) as [ids r]. simpl in *. intros Hr.
      destruct (IH Hr) as (issued' & Hids' & Hold & Hsub).
      exists issued'. repeat apply conj; trivial.
      - intros x Hx. apply Hold. by right.
      - intros x Hx. apply elem_of_cons in Hx as [-> | Hx]; [| auto].
        apply Hold. left. }
    destruct op as [dip | dip |]; simpl.
    + destruct (hammer_alloc_objid m0 dip) as [[t m1] | | |] eqn:Hcall; try discriminate.
      destruct (hammer_alloc_objid_wf m0 m1 dip t) as [Hwf1 Hcnt1]; trivial; [lia |].
      apply Hcons; trivial.
      exact (hammer_alloc_objid_ids m0 m1 dip t issued Hbulk Hwf Hcnt Hids Hcall).
    + destruct (hammer_clear_objid m0 dip) as [m1 | | |] eqn:Hcall; try discriminate.
      destruct (hammer_clear_objid_wf m0 m1 dip) as [Hwf1 Hcnt1]; trivial.
      apply IH; trivial. by apply (hammer_clear_objid_ids m0 m1 dip issued).
    + destruct (hammer_alloc_tid (mount m0) 1) as [[t hmp] | | |] eqn:Hcall;
        try discriminate.
      destruct (alloc_tid_op_inv m0 hmp t issued) as (Hwf1 & Hcnt1 & _); trivial.
      apply Hcons; trivial. by apply alloc_tid_op_ids.
Qed.

(** X15.  Every id a serial run has handed out, object id or TID,
    is at most the TID counter of the state reached, and strictly
    below the id of any reservation made from there: ids are handed out
    in a space that only moves up, also across the object id cache. *)
Theorem mount_ids_below_counter (next master : Z) (ops : list objid_op) (m : kmem) (x : Z) :
  1 <= OBJID_CACHE_BULK < 2 ^ 20 ->
  0 <= next < 2 ^ 64 -> master < HAMMER_MAX_MASTERS ->
  snd (mount_run (fresh_mount next master) ops) = Ret m ->
  x ∈ fst (mount_run (fresh_mount next master) ops) ->
  x <= next_tid (mount m) /\
  forall count t hmp, 1 <= count < 2 ^ 20 ->
    hammer_alloc_tid (mount m) count = Ret (t, hmp) -> x < t.
Proof.
  intros Hbulk Hn Hm Hrun Hx.
  destruct (fresh_mount_inv next master Hn Hm) as (Hwf0 & Hcnt0 & Hids0).
  destruct (mount_run_reaches ops (fresh_mount next master) m [] Hbulk Hwf0 Hcnt0 Hids0 Hrun)
    as (issued & Hids & _ & Hsub).
  apply Hsub in Hx.
  pose proof (ids_below m issued Hids x Hx) as Hle.
  assert (Hroom : next_tid (mount m) + HAMMER_MAX_MASTERS < 2 ^ 64).
  { destruct (ids_room m issued Hids) as [Hr | [Hi _]]; [assumption |].
    rewrite Hi in Hx. inversion Hx. }
  split; [lia |].
  intros count t hmp Hc Hcall.
  destruct (hammer_alloc_tid_reserve (mount m) hmp count t) as (_ & _ & _ & _ & _ & Hup);
    trivial; [apply (ids_next m issued Hids) | apply (ids_master m issued Hids) |].
  specialize (Hup Hroom). lia.
Qed.

End RunOrder.

(** X16.  Releasing a directory's cache entry is idempotent and local:
    after a release that returned, the directory has no entry, a
    second release changes nothing, the other directories keep their
    entries, and no entry's ids change. *)
Theorem hammer_clear_objid_idempotent (m m' : kmem) (dip : nat) :
  hammer_clear_objid m dip = Ret m' ->
  icache m' !! dip = None /\
  hammer_clear_objid m' dip = Ret m' /\
  (forall d, d <> dip -> icache m' !! d = icache m !! d) /\
  (forall p, (ocp_next_tid <$> ocache m' !! p) = (ocp_next_tid <$> ocache m !! p) /\
             (ocp_count <$> ocache m' !! p) = (ocp_count <$> ocache m !! p)).
Proof.
  unfold hammer_clear_objid at 1.
  destruct (icache m !! dip) as [ocp |] eqn:Hdip.
  - destruct (ocache m !! ocp) as [e |] eqn:He; [| discriminate].
    intros [= <-]. unfold hammer_clear_objid. cbn [icache ocache].
    rewrite lookup_delete_eq. repeat apply conj; trivial.
    + intros d Hd. by rewrite lookup_delete_ne.
    + intros p. destruct (decide (p = ocp)) as [-> | Hp].
      * by rewrite lookup_insert_eq, He.
      * by rewrite lookup_insert_ne.
  - intros [= <-]. unfold hammer_clear_objid. rewrite Hdip. by repeat apply conj.
Qed.

(** * Instances of the properties above *)

Ltac config_side := first [reflexivity | simpl; lia | unfold HAMMER_MAX_MASTERS; lia].

Lemma after_tid_mem_reached :
  snd (@mount_run scenario_h (fresh_mount 100 (-1)) [OpAlloc 7%nat; OpAllocTid])
  = Ret after_tid_mem.
Proof. vm_compute. reflexivity. Qed.

Lemma mount_ids_distinct_witness :
  NoDup (fst (@mount_run scenario_h (fresh_mount 100 (-1))
                [OpAlloc 7%nat; OpAllocTid; OpAlloc 7%nat; OpClear 7%nat; OpAlloc 8%nat])).
Proof. apply (@mount_ids_distinct scenario_h 100 (-1)); config_side. Defined.

Lemma objid_pool_within_capacity_witness :
  (length (objid_cache_list (mount two_dirs_mem)) <= Z.to_nat (@OBJID_CACHE_SIZE two_entry_h))%nat /\
  objid_cache_count (mount two_dirs_mem)
    = Z.of_nat (length (objid_cache_list (mount two_dirs_mem))) /\
  size (ocache two_dirs_mem) = length (objid_cache_list (mount two_dirs_mem)) /\
  (forall p, is_Some (ocache two_dirs_mem !! p) <-> p ∈ objid_cache_list (mount two_dirs_mem)).
Proof.
  apply (@objid_pool_within_capacity two_entry_h 100 (-1) [OpAlloc 1%nat; OpAlloc 2%nat]);
    first [exact two_dirs_mem_reached | config_side].
Defined.

Lemma objid_binding_one_to_one_witness :
  (forall d p, icache two_dirs_mem !! d = Some p ->
     exists e, ocache two_dirs_mem !! p = Some e /\ ocp_dip e = Some d) /\
  (forall p e d, ocache two_dirs_mem !! p = Some e -> ocp_dip e = Some d ->
     icache two_dirs_mem !! d = Some p).
Proof.
  destruct (@objid_binding_one_to_one two_entry_h 100 (-1) [OpAlloc 1%nat; OpAlloc 2%nat]
              two_dirs_mem) as (Hd & He & _);
    first [exact two_dirs_mem_reached | config_side | by split].
Defined.

Lemma mount_counter_monotone_witness :
  next_tid (mount (fresh_mount 100 (-1))) <= next_tid (mount two_dirs_mem) /\
  next_tid (mount two_dirs_mem) + HAMMER_MAX_MASTERS < 2 ^ 64 /\
  master_id (mount two_dirs_mem) = master_id (mount (fresh_mount 100 (-1))).
Proof.
  apply (@mount_counter_monotone two_entry_h (fresh_mount 100 (-1)) two_dirs_mem
           [OpAlloc 1%nat; OpAlloc 2%nat]);
    first [exact two_dirs_mem_reached | config_side].
Defined.

Lemma mount_ids_master_bits_witness :
  114 ∈ fst (@mount_run scenario_h (fresh_mount 100 2) [OpAllocTid; OpAlloc 7%nat]) /\
  114 mod HAMMER_MAX_MASTERS = 2.
Proof.
  assert (Hin : 114 ∈ fst (@mount_run scenario_h (fresh_mount 100 2)
                             [OpAllocTid; OpAlloc 7%nat])).
  { vm_compute. left. }
  split; [exact Hin |].
  apply (@mount_ids_master_bits scenario_h 100 2 [OpAllocTid; OpAlloc 7%nat] 114);
    first [exact Hin | config_side].
Defined.

Lemma hammer_clear_then_alloc_witness :
  (@hammer_clear_objid two_dirs_mem 1%nat
     ≫= fun m' => @hammer_alloc_objid two_entry_h m' 1%nat)
  = @hammer_alloc_objid two_entry_h two_dirs_mem 1%nat.
Proof.
  apply (@hammer_clear_then_alloc two_entry_h two_dirs_mem 1%nat 0%nat);
    first [exact two_dirs_mem_wf | config_side].
Defined.

Lemma mount_ids_below_counter_witness :
  101 <= next_tid (mount after_tid_mem) /\
  forall count t hmp, 1 <= count < 2 ^ 20 ->
    hammer_alloc_tid (mount after_tid_mem) count = Ret (t, hmp) -> 101 < t.
Proof.
  apply (@mount_ids_below_counter scenario_h 100 (-1) [OpAlloc 7%nat; OpAllocTid]);
    first [exact after_tid_mem_reached | config_side | idtac].
  vm_compute. left.
Defined.

Lemma hammer_clear_objid_idempotent_witness :
  exists m', hammer_clear_objid two_dirs_mem 1%nat = Ret m' /\
             icache m' !! 1%nat = None /\
             hammer_clear_objid m' 1%nat = Ret m' /\
             icache m' !! 2%nat = Some 1%nat.
Proof.
  destruct (hammer_clear_objid two_dirs_mem 1%nat) as [m' | | |] eqn:Hclear;
    try (vm_compute in Hclear; discriminate).
  destruct (hammer_clear_objid_idempotent two_dirs_mem m' 1%nat Hclear)
    as (Hnone & Hagain & Hother & _).
  exists m'. repeat apply conj; trivial.
  rewrite Hother by discriminate. reflexivity.
Defined.
